(** * Motorboat: the DigitalOcean provisioner (lib/digital-ocean-provisioner.js)

    A shallow embedding of the provisioning orchestrator: the remote
    copy-then-execute pipeline, the droplet lifecycle, the per-instance
    configuration pipeline, batch fan-out and fleet reconciliation.

    The JavaScript is callback driven.  Callback-taking functions are
    embedded in continuation-passing style over a small state-and-trace
    monad; timer and network driven code (the creation poll, async.parallel)
    is embedded as transition functions over explicit events. *)

From Stdlib Require Import ZArith Lia Ascii String.
From stdpp Require Import base tactics option list strings pretty.

Local Open Scope string_scope.
Local Open Scope Z_scope.
Local Open Scope list_scope.

(** ** JavaScript values and library primitives used by the program *)

Module Js.

(** An error value reaching a callback: either one handed over by a
    collaborator (API client, port probe), or a string this program
    built itself. *)
Inductive error :=
| Provider (payload : string)
| Message (msg : string).

Definition error_eqb (a b : error) : bool :=
  match a, b with
  | Provider x, Provider y => String.eqb x y
  | Message x, Message y => String.eqb x y
  | _, _ => false
  end.

(** An identifier as callers and the API hand it over: a number or a
    string. *)
Inductive ident :=
| Num (z : Z)
| Str (s : string).

(** [s.indexOf(path.sep) >= 0] with [path.sep = '/']. *)
Fixpoint has_sep (s : string) : bool :=
  match s with
  | EmptyString => false
  | String c s' => if Ascii.eqb c "/"%char then true else has_sep s'
  end.

(** Components of a path between separators. *)
Fixpoint components (cur : string) (s : string) : list string :=
  match s with
  | EmptyString => [cur]
  | String c s' =>
      if Ascii.eqb c "/"%char then cur :: components EmptyString s'
      else components (cur +:+ String c EmptyString) s'
  end.

Definition nonempty (s : string) : bool :=
  match s with EmptyString => false | _ => true end.

(** POSIX [path.basename]: the last non-empty component. *)
Definition basename (s : string) : string :=
  List.last (List.filter nonempty (components EmptyString s)) EmptyString.

(** [dest.slice(-1)]: the last character, as a string. *)
Fixpoint slice_last (s : string) : string :=
  match s with
  | EmptyString => EmptyString
  | String c EmptyString => String c EmptyString
  | String _ s' => slice_last s'
  end.

(** [String(n)] for an integer, as [%s] and [+] render it. *)
Definition num (z : Z) : string := pretty z.

(** [String(id)], as string concatenation renders an identifier. *)
Definition to_string (i : ident) : string :=
  match i with Num z => num z | Str s => s end.

(** ASCII white space skipped by [parseInt]. *)
Definition is_space (c : ascii) : bool :=
  let n := nat_of_ascii c in
  ((9 <=? n) && (n <=? 13) || (n =? 32))%nat.

Definition digit_of (c : ascii) : option Z :=
  let n := nat_of_ascii c in
  if ((48 <=? n) && (n <=? 57))%nat then Some (Z.of_nat n - 48) else None.

Fixpoint skip_spaces (s : string) : string :=
  match s with
  | String c s' => if is_space c then skip_spaces s' else s
  | EmptyString => s
  end.

(** The longest prefix of decimal digits, read left to right; [None]
    when there is none. *)
Fixpoint digits (acc : option Z) (s : string) : option Z :=
  match s with
  | String c s' =>
      match digit_of c with
      | Some d =>
          digits (Some (match acc with Some a => 10 * a + d | None => d end)) s'
      | None => acc
      end
  | EmptyString => acc
  end.

(** [parseInt(s, 10)] on a string; [None] is [NaN]. *)
Definition parseInt_string (s : string) : option Z :=
  match skip_spaces s with
  | String "-"%char s' => Z.opp <$> digits None s'
  | String "+"%char s' => digits None s'
  | s' => digits None s'
  end.

(** [parseInt(x, 10)]: the argument is converted to a string first. *)
Definition parseInt (x : ident) : option Z := parseInt_string (to_string x).

(** [===] on numbers: [NaN] equals nothing, itself included. *)
Definition number_eqb (a b : option Z) : bool :=
  match a, b with
  | Some x, Some y => (x =? y)%Z
  | _, _ => false
  end.

(** [arr.indexOf(x) >= 0] on an array of numbers. *)
Definition index_found (arr : list (option Z)) (x : option Z) : bool :=
  existsb (fun y => number_eqb y x) arr.

(** [moment().unix()]: whole seconds of a millisecond clock. *)
Definition unix (ms : Z) : Z := ms / 1000.

End Js.

(** ** Effects: a state-and-trace monad *)

(** What a run does to the outside, in the order it happens. *)
Inductive action :=
| Exec (cmd : string)                     (* shell.exec(cmd, ...) *)
| SetTimeout (ms : Z)                     (* setTimeout(f, ms) *)
| Log (level msg : string)                (* winston.log *)
| DropletGet (id : Js.ident)              (* api.dropletGet *)
| DropletGetAll                           (* api.dropletGetAll *)
| CalledErr (who : string) (err : Js.error)        (* who(err) *)
| CalledOk (who : string) (vals : list string).    (* who(null, ...) *)

Inductive outcome (A : Type) :=
| Returned (a : A)
| Thrown (exn : string)                   (* uncaught exception *)
| OutOfFuel.
Arguments Returned {A} a.
Arguments Thrown {A} exn.
Arguments OutOfFuel {A}.

Section Monad.
Context {W : Type}.

Record machine := Machine { world : W; trace : list action }.

Definition prog (A : Type) : Type := machine -> outcome A * machine.

Definition ret {A} (a : A) : prog A := fun m => (Returned a, m).

Definition bind {A B} (p : prog A) (k : A -> prog B) : prog B :=
  fun m =>
    match p m with
    | (Returned a, m') => k a m'
    | (Thrown e, m') => (Thrown e, m')
    | (OutOfFuel, m') => (OutOfFuel, m')
    end.

Definition throw {A} (e : string) : prog A := fun m => (Thrown e, m).

Definition out_of_fuel {A} : prog A := fun m => (OutOfFuel, m).

Definition emit (a : action) : prog unit :=
  fun m => (Returned tt, Machine (world m) (trace m ++ [a])).

(** A call to a collaborator: a function of the world. *)
Definition ask {A} (f : W -> A * W) : prog A :=
  fun m => let '(a, w) := f (world m) in (Returned a, Machine w (trace m)).

Definition read {A} (f : W -> A) : prog A :=
  fun m => (Returned (f (world m)), m).

Definition run {A} (p : prog A) (w : W) : outcome A * machine :=
  p (Machine w []).
End Monad.
Arguments machine W : clear implicits.
Arguments prog W A : clear implicits.

Declare Scope prog_scope.
Delimit Scope prog_scope with prog.
Notation "'let*' x := p 'in' k" := (bind p (fun x => k))
  (at level 10, x pattern, p at level 100, k at level 200) : prog_scope.
Notation "p ;; k" := (bind p (fun _ => k))
  (at level 100, k at level 200, right associativity) : prog_scope.

(** ** Collaborators *)

Record instance := MkInstance
  { inst_id : Js.ident; inst_name : string; ip_address : string }.

(** The external world the provisioner talks to.  Every call may change
    the world, so the same request can be answered differently later. *)
Class Collab (W : Type) := {
  now_ms : W -> Z;                                        (* Date.now() *)
  shell_exec : string -> W -> (Z * string) * W;           (* exit code, output *)
  api_dropletGet : Js.ident -> W -> (Js.error + instance) * W;
  api_dropletGetAll : W -> (Js.error + list instance) * W;
}.

Record options := Options
  { private_ssh_key : string; scripts_path : string; enable_logging : bool }.

Definition dquote : string := String (ascii_of_nat 34) EmptyString.

(** ** RemoteExecutor: copy a script to a host, then run it *)

Section RemoteExecutor.
Context {W : Type} `{Collab W} (opts : options).
Local Open Scope prog_scope.

(** [_log]: nothing is written when logging is disabled. *)
Definition _log (level msg : string) : prog W unit :=
  if enable_logging opts then emit (Log level msg) else ret tt.

Definition ssh_flags : string :=
  " -o StrictHostKeyChecking=no -o GSSAPIAuthentication=no".

Definition _getScriptPath (script : string) : string :=
  if Js.has_sep script then script
  else scripts_path opts +:+ "/" +:+ script.

(** The [basename] local of [_copyInstanceScript]. *)
Definition staging_name (script : string) : string :=
  if Js.has_sep script then Js.basename script else script.

(** [_.sprintf('/tmp/%s_%s', basename, moment().unix())] *)
Definition target_path_at (script : string) (clock_ms : Z) : string :=
  "/tmp/" +:+ staging_name script +:+ "_" +:+ Js.num (Js.unix clock_ms).

Definition copy_cmd_of (ip script target_path : string) : string :=
  "scp -i " +:+ private_ssh_key opts +:+ ssh_flags +:+ " -q "
    +:+ _getScriptPath script +:+ " root@" +:+ ip +:+ ":" +:+ target_path.

(** The object handed to the copy callback on success. *)
Record copied := Copied { copied_ip : string; copied_target : string }.

Section Kopy.
Variables (ip script target_path copy_cmd : string).
Variable cb : Js.error + copied -> prog W unit.

Definition copy_succeeded_msg : string :=
  "Copy of script `" +:+ script +:+ "` to ip_address " +:+ ip +:+ " succeeded".

(** The closure [kopy].  [attempts] is the closure variable it
    increments; [fuel] bounds the unfolding of the timer-driven
    recursion.  In the failure branch with [attempts <= 10] the source
    arms the 120000 ms timer and does not return: control falls through
    to the success log and to [cb(null, {...})].  The armed timer fires
    once the current callback has run to its end, which is where the
    recursive call sits. *)
Fixpoint kopy (fuel : nat) (attempts : nat) : prog W unit :=
  match fuel with
  | O => out_of_fuel
  | S fuel' =>
      let attempts := S attempts in
      emit (Exec copy_cmd);;
      let* r := ask (shell_exec copy_cmd) in
      let code := fst r in
      if negb (code =? 0)%Z then
        if (10 <? attempts)%nat then
          _log "error" "Error copying provisioning script to target host";;
          cb (inl (Js.Message ("scp returned with error code: " +:+ Js.num code)))
        else
          emit (SetTimeout 120000);;
          _log "info" copy_succeeded_msg;;
          cb (inr (Copied ip target_path));;
          kopy fuel' attempts
      else
        _log "info" copy_succeeded_msg;;
        cb (inr (Copied ip target_path))
  end.
End Kopy.

Definition _copyInstanceScript (ip script : string)
    (cb : Js.error + copied -> prog W unit) : prog W unit :=
  let* clock := read now_ms in
  let target_path := target_path_at script clock in
  let copy_cmd := copy_cmd_of ip script target_path in
  _log "info" ("Copy script `" +:+ script +:+ "` to ip_address: " +:+ ip);;
  kopy ip script target_path copy_cmd cb 11 0.

(** Identifiers visible inside the [shell.exec] callback of
    [_executeExistingInstanceScript]: its parameters, the enclosing
    function's parameters and locals, the module-level [var]s and the
    names Node gives every module. *)
Definition exec_callback_scope : list string :=
  ["code"; "output";
   "ip_address"; "script_path"; "cb"; "script_cmd"; "self";
   "_"; "_string"; "DigitalOceanAPI"; "apiCommands"; "fs"; "Q"; "nconf";
   "shell"; "async"; "path"; "tcpPortUsed"; "Table"; "commander"; "glob";
   "moment"; "MicroEvent"; "winston"; "DigitalOceanProvisioner";
   "exports"; "require"; "module"; "__filename"; "__dirname";
   "process"; "console"; "setTimeout"; "setInterval"; "clearInterval"].

Definition in_scope (scope : list string) (x : string) : bool :=
  existsb (String.eqb x) scope.

Definition script_cmd_of (ip script_path : string) : string :=
  "ssh root@" +:+ ip +:+ " -i " +:+ private_ssh_key opts +:+ ssh_flags
    +:+ " -q " +:+ dquote +:+ "chmod +x " +:+ script_path +:+ "; "
    +:+ script_path +:+ dquote.

(** On a non-zero exit code the error log's metadata object reads the
    identifier [cmd]; evaluating it comes before the log call and before
    [cb]. *)
Definition _executeExistingInstanceScript (ip script_path : string)
    (cb : Js.error + string -> prog W unit) : prog W unit :=
  let script_cmd := script_cmd_of ip script_path in
  _log "info" ("Executing script `" +:+ script_path +:+ "` against ip_address: " +:+ ip);;
  emit (Exec script_cmd);;
  let* r := ask (shell_exec script_cmd) in
  let code := fst r in
  let output := snd r in
  if negb (code =? 0)%Z then
    if in_scope exec_callback_scope "cmd" then
      _log "error" "Error executing remote provisioning script";;
      cb (inl (Js.Message ("ssh returned with error code: " +:+ Js.num code)))
    else
      throw "ReferenceError: cmd is not defined"
  else
    _log "info" ("Execution of script `" +:+ script_path +:+ "` against ip_address " +:+ ip +:+ " succeeded");;
    cb (inr output).

(** [async.waterfall [copy, execute]]: a task's callback invoked without
    error hands its result to the next task; invoked with an error it
    hands the error to the final callback. *)
Definition executeInstanceScript (instance_id : Js.ident) (script : string)
    (cb : Js.error + string -> prog W unit) : prog W unit :=
  _log "info" ("Executing `" +:+ script +:+ "` script against instance_id: " +:+ Js.to_string instance_id);;
  emit (DropletGet instance_id);;
  let* r := ask (api_dropletGet instance_id) in
  match r with
  | inl err => cb (inl err)
  | inr inst =>
      _copyInstanceScript (ip_address inst) script (fun r2 =>
        match r2 with
        | inl err => cb (inl err)
        | inr result =>
            _executeExistingInstanceScript (copied_ip result) (copied_target result)
              (fun r3 =>
                 match r3 with
                 | inl err => cb (inl err)
                 | inr results => cb (inr results)
                 end)
        end)
  end.

(** Callbacks that only record how they were invoked. *)
Definition record_copy (r : Js.error + copied) : prog W unit :=
  match r with
  | inl err => emit (CalledErr "cb" err)
  | inr c => emit (CalledOk "cb" [copied_ip c; copied_target c])
  end.

Definition record_output (r : Js.error + string) : prog W unit :=
  match r with
  | inl err => emit (CalledErr "cb" err)
  | inr out => emit (CalledOk "cb" [out])
  end.
End RemoteExecutor.

(** ** Folder synchronisation: [copyFolder] and [syncFolders] *)

Section Folders.
Context {W : Type} `{Collab W} (opts : options).
Local Open Scope prog_scope.

Definition rsync_prefix : string :=
  "rsync -avz --delete -e 'ssh -i " +:+ private_ssh_key opts
    +:+ " -o StrictHostKeyChecking=no -o GSSAPIAuthentication=no' ".

Definition copyFolder (instance_id : Js.ident) (source dest : string)
    (cb : Js.error + string -> prog W unit) : prog W unit :=
  emit (DropletGet instance_id);;
  let* r := ask (api_dropletGet instance_id) in
  match r with
  | inl err => cb (inl err)
  | inr inst =>
      let dest :=
        if negb (String.eqb (Js.slice_last dest) "/") then dest +:+ "/" else dest in
      let rsync_cmd :=
        rsync_prefix +:+ source +:+ " root@" +:+ ip_address inst +:+ ":" +:+ dest in
      emit (Exec rsync_cmd);;
      let* x := ask (shell_exec rsync_cmd) in
      if negb (fst x =? 0)%Z then
        cb (inl (Js.Message ("Error running rsync: " +:+ rsync_cmd)))
      else
        cb (inr (snd x))
  end.

Definition syncFolders (instance_id : Js.ident) (source dest : string)
    (cb : Js.error + string -> prog W unit) : prog W unit :=
  emit (DropletGet instance_id);;
  let* r := ask (api_dropletGet instance_id) in
  match r with
  | inl err => cb (inl err)
  | inr inst =>
      let dest :=
        if negb (String.eqb (Js.slice_last dest) "/") then dest +:+ "/" else dest in
      let rsync_cmd :=
        rsync_prefix +:+ source +:+ " root@" +:+ ip_address inst +:+ ":" +:+ dest in
      emit (Exec rsync_cmd);;
      let* x := ask (shell_exec rsync_cmd) in
      if negb (fst x =? 0)%Z then
        cb (inl (Js.Message ("Error running rsync: " +:+ rsync_cmd)))
      else
        cb (inr (snd x))
  end.
End Folders.

(** ** InstanceConfigurator: the success branch of [cb] in [_provision] *)

Record folder := Folder { source : string; destination : string }.

Record request := Request
  { req_name : string;
    folders : option (list folder);     (* [None]: not an array *)
    scripts : option (list string) }.   (* [None]: not an array *)

Section Configure.
Context {W : Type} `{Collab W} (opts : options).
Local Open Scope prog_scope.

(** [async.series]: tasks run one after the other; the first error goes
    to the final callback and the remaining tasks are not started.  A
    task is taken to report once; [executeInstanceScript] reports again
    after a retried copy (see [kopy]), and what async does with a second
    report differs between its versions. *)
Fixpoint series {A} (tasks : list ((Js.error + A -> prog W unit) -> prog W unit))
    (acc : list A) (callback : Js.error + list A -> prog W unit) : prog W unit :=
  match tasks with
  | [] => callback (inr (rev acc))
  | task :: rest =>
      task (fun r =>
        match r with
        | inl err => callback (inl err)
        | inr a => series rest (a :: acc) callback
        end)
  end.

(** [executeScripts] for a single identifier, the way [_provision]
    calls it ([instances = [instance_id]]); [async.parallel] of the one
    series hands on that series' error, or its result in a one-element
    array.  An error of the listing call is thrown. *)
Definition executeScripts (instance_id : Js.ident) (scripts : list string)
    (final_cb : Js.error + list (list string) -> prog W unit) : prog W unit :=
  _log opts "info" "Executing provisioning scripts";;
  emit DropletGetAll;;
  let* r := ask api_dropletGetAll in
  match r with
  | inl err => throw "uncaught: error listing droplets"
  | inr droplets =>
      _log opts "info" ("Executing scripts against instance_id " +:+ Js.to_string instance_id);;
      series (map (fun script cb => executeInstanceScript opts instance_id script cb) scripts) []
        (fun r =>
           match r with
           | inl err => final_cb (inl err)
           | inr result => final_cb (inr [result])
           end)
  end.

(** The body of [cb] after its [called] and [err] guards: folder syncs
    in series, then [runScripts]. *)
Definition runScripts (req : request) (inst : instance)
    (finalCb : Js.error + instance -> prog W unit) : prog W unit :=
  match scripts req with
  | Some (script :: more) =>
      executeScripts (inst_id inst) (script :: more) (fun r =>
        match r with
        | inl err => finalCb (inl err)
        | inr _ => finalCb (inr inst)
        end)
  | _ => finalCb (inr inst)
  end.

Definition configure (req : request) (inst : instance)
    (finalCb : Js.error + instance -> prog W unit) : prog W unit :=
  match folders req with
  | Some fs =>
      series
        (map (fun f cb => copyFolder opts (inst_id inst) (source f) (destination f) cb) fs)
        []
        (fun r =>
           match r with
           | inl err => finalCb (inl err)
           | inr _ => runScripts req inst finalCb
           end)
  | None => runScripts req inst finalCb
  end.

Definition record_final (r : Js.error + instance) : prog W unit :=
  match r with
  | inl err => emit (CalledErr "finalCb" err)
  | inr inst => emit (CalledOk "finalCb" [Js.to_string (inst_id inst)])
  end.

(** One folder sync on its own: what it does, the world it leaves and
    the error it reports, if any. *)
Definition sync_one (inst : instance) (f : folder) (w : W)
    : list action * W * option Js.error :=
  let '(r, w1) := api_dropletGet (inst_id inst) w in
  match r with
  | inl err => ([DropletGet (inst_id inst)], w1, Some err)
  | inr found =>
      let dest :=
        if negb (String.eqb (Js.slice_last (destination f)) "/")
        then destination f +:+ "/" else destination f in
      let cmd :=
        rsync_prefix opts +:+ source f +:+ " root@" +:+ ip_address found +:+ ":" +:+ dest in
      let '(x, w2) := shell_exec cmd w1 in
      ([DropletGet (inst_id inst); Exec cmd], w2,
       if negb (fst x =? 0)%Z then Some (Js.Message ("Error running rsync: " +:+ cmd))
       else None)
  end.

(** The folder stage as the specification words it: syncs in the order
    supplied, stopping at the first one that fails.  The first component
    counts the syncs started. *)
Fixpoint sync_all (inst : instance) (fs : list folder) (w : W)
    : nat * list action * W * option Js.error :=
  match fs with
  | [] => (O, [], w, None)
  | f :: rest =>
      let '(acts, w1, r) := sync_one inst f w in
      match r with
      | Some err => (1%nat, acts, w1, Some err)
      | None =>
          let '(n, acts', w2, r') := sync_all inst rest w1 in
          (S n, (acts ++ acts')%list, w2, r')
      end
  end.

(** Actions that belong to the script stage: the listing call of
    [executeScripts] and the scp and ssh commands of the pipeline. *)
Definition is_script_action (a : action) : bool :=
  match a with
  | DropletGetAll => true
  | Exec cmd => String.prefix "scp " cmd || String.prefix "ssh " cmd
  | _ => false
  end.

End Configure.

(** ** DropletLifecycleController: [_provision] up to [cb] *)

Module Lifecycle.

Record droplet := Droplet { d_instance : instance; d_event_id : Z }.

(** What can happen to a provisioning run once [_provision] has been
    entered.  Error payloads are the collaborators' own. *)
Inductive event :=
| CreateReplied (r : string + droplet)    (* callback of api.dropletNew *)
| Tick                                    (* the interval timer fires *)
| EventReplied (r : string + string)      (* callback of api.eventGet:
                                             error or data.action_status *)
| PortOpened                              (* waitUntilUsedOnHost resolved *)
| PortFailed (err : string)               (* waitUntilUsedOnHost rejected *)
| SettleFired.                            (* the 10000 ms timer fires *)

Inductive effect :=
| DropletNew (name : string)
| SetInterval (ms : Z)
| ClearInterval
| EventGet (event_id : Z)
| WaitUntilUsedOnHost (port : Z) (host : string) (retry_ms timeout_ms : Z)
| ArmTimeout (ms : Z)
| Throw (err : Js.error)
| FinalCb (err : Js.error)                (* finalCb(err) *)
| Configure (inst : instance).            (* folders, scripts, finalCb *)

Record state := State
  { start : Z;                   (* moment().unix() on entry *)
    created : option droplet;
    interval : option bool;      (* [None] unset, [Some armed] *)
    called : bool;
    creating : bool;             (* api.dropletNew in flight *)
    polls : nat;                 (* api.eventGet calls in flight *)
    port_waits : nat;            (* port probes in flight *)
    settles : nat;               (* settle timers armed *)
    crashed : bool }.            (* an exception escaped a callback *)

Definition _getDropletLaunchTimeout : Z := 600.

Definition timeout_error : Js.error :=
  Js.Message ("Creation of new droplet exceeded timeout of: "
                +:+ Js.num _getDropletLaunchTimeout).

Definition init (clock_ms : Z) : state :=
  State (Js.unix clock_ms) None None false true 0 0 0 false.

Definition _provision (req : request) (clock_ms : Z) : state * list effect :=
  (init clock_ms, [DropletNew (req_name req)]).

(** [clearInterval(interval)] *)
Definition clear (st : state) : state :=
  State (start st) (created st)
        (match interval st with Some _ => Some false | None => None end)
        (called st) (creating st) (polls st) (port_waits st) (settles st)
        (crashed st).

(** The local function [cb] of [_provision]. *)
Definition cb (st : state) (r : Js.error + instance) : state * list effect :=
  if called st then (st, [])
  else
    let st1 := State (start st) (created st) (interval st) true (creating st)
                     (polls st) (port_waits st) (settles st) (crashed st) in
    let '(st2, cleared) :=
      match interval st1 with
      | Some _ => (clear st1, [ClearInterval])
      | None => (st1, [])
      end in
    match r with
    | inl err => (st2, (cleared ++ [FinalCb err])%list)
    | inr inst => (st2, (cleared ++ [Configure inst])%list)
    end.

(** The callback of [api.eventGet] inside the interval function. *)
Definition on_event_reply (st : state) (clock_ms : Z) (d : droplet)
    (r : string + string) : state * list effect :=
  match r with
  | inl err =>
      let '(st', effs) := cb (clear st) (inl (Js.Provider err)) in
      (st', ClearInterval :: effs)
  | inr action_status =>
      if String.eqb action_status "done" then
        let st1 := clear st in
        (State (start st1) (created st1) (interval st1) (called st1)
               (creating st1) (polls st1) (S (port_waits st1)) (settles st1)
               (crashed st1),
         [ClearInterval;
          WaitUntilUsedOnHost 22 (ip_address (d_instance d)) 1000 240000])
      else
        let tsDiff := Js.unix clock_ms - start st in
        if _getDropletLaunchTimeout <=? tsDiff then
          let '(st', effs) := cb (clear st) (inl timeout_error) in
          (st', ClearInterval :: effs)
        else (st, [])
  end.

(** One event handled at clock reading [clock_ms]; [None] when the
    event cannot occur in this state (a timer that is not armed, a reply
    to a request that was not made, anything after a crash). *)
Definition step (st : state) (clock_ms : Z) (ev : event)
    : option (state * list effect) :=
  if crashed st then None else
  match ev with
  | CreateReplied r =>
      if creating st then
        match r with
        | inl err =>
            Some (State (start st) (created st) (interval st) (called st) false
                        (polls st) (port_waits st) (settles st) true,
                  [Throw (Js.Provider err)])
        | inr d =>
            Some (State (start st) (Some d) (Some true) (called st) false
                        (polls st) (port_waits st) (settles st) (crashed st),
                  [SetInterval 8000])
        end
      else None
  | Tick =>
      match interval st, created st with
      | Some true, Some d =>
          Some (State (start st) (created st) (interval st) (called st)
                      (creating st) (S (polls st)) (port_waits st) (settles st)
                      (crashed st),
                [EventGet (d_event_id d)])
      | _, _ => None
      end
  | EventReplied r =>
      match polls st, created st with
      | S n, Some d =>
          Some (on_event_reply
                  (State (start st) (created st) (interval st) (called st)
                         (creating st) n (port_waits st) (settles st) (crashed st))
                  clock_ms d r)
      | _, _ => None
      end
  | PortOpened =>
      match port_waits st with
      | S n =>
          Some (State (start st) (created st) (interval st) (called st)
                      (creating st) (polls st) n (S (settles st)) (crashed st),
                [ArmTimeout 10000])
      | O => None
      end
  | PortFailed err =>
      match port_waits st with
      | S n =>
          Some (cb (State (start st) (created st) (interval st) (called st)
                          (creating st) (polls st) n (settles st) (crashed st))
                   (inl (Js.Provider err)))
      | O => None
      end
  | SettleFired =>
      match settles st, created st with
      | S n, Some d =>
          Some (cb (State (start st) (created st) (interval st) (called st)
                          (creating st) (polls st) (port_waits st) n (crashed st))
                   (inr (d_instance d)))
      | _, _ => None
      end
  end.

(** A run: events with the clock reading at which each is handled. *)
Fixpoint run (st : state) (evs : list (Z * event))
    : option (state * list effect) :=
  match evs with
  | [] => Some (st, [])
  | (clock_ms, ev) :: rest =>
      match step st clock_ms ev with
      | None => None
      | Some (st1, effs) =>
          match run st1 rest with
          | None => None
          | Some (st2, effs') => Some (st2, (effs ++ effs')%list)
          end
      end
  end.

Definition is_final_error (e : Js.error) (eff : effect) : bool :=
  match eff with
  | FinalCb e' => Js.error_eqb e e'
  | _ => false
  end.

Definition reports_timeout (effs : list effect) : bool :=
  existsb (is_final_error timeout_error) effs.

Definition is_event_get (eff : effect) : bool :=
  match eff with EventGet _ => true | _ => false end.

Definition observed_done (evs : list (Z * event)) : Prop :=
  exists clock_ms, In (clock_ms, EventReplied (inr "done")) evs.

(** The condition as the specification words it: on a poll reply, the
    elapsed time exceeds the budget and the status is not done. *)
Definition budget_exceeded (st : state) (clock_ms : Z) (ev : event) : Prop :=
  exists status, ev = EventReplied (inr status) /\ status <> "done"
    /\ _getDropletLaunchTimeout < Js.unix clock_ms - start st.

(** The condition the code tests. *)
Definition budget_reached (st : state) (clock_ms : Z) (ev : event) : Prop :=
  exists status, ev = EventReplied (inr status) /\ status <> "done"
    /\ _getDropletLaunchTimeout <= Js.unix clock_ms - start st.

(** Once a droplet has been created, no create call is in flight and the
    interval handle is set. *)
Definition polling_started (st : state) : Prop :=
  created st = None \/ (creating st = false /\ interval st <> None).

(** The interval has been cleared for good. *)
Definition disarmed (st : state) : Prop :=
  interval st = Some false /\ creating st = false.

End Lifecycle.

(** ** [async.parallel] *)

Module Async.
Section Parallel.
Context {A : Type}.

(** [arr[i] = v] on a JavaScript array: writing past the end extends
    the array, leaving holes.  [None] is [undefined]. *)
Definition array_set (i : nat) (v : option A) (arr : list (option A))
    : list (option A) :=
  if (i <? length arr)%nat then <[i:=v]> arr
  else (arr ++ replicate (i - length arr) None ++ [v])%list.

(** [arr[i]]: reading a hole or past the end gives [undefined]. *)
Definition array_get (arr : list (option A)) (i : nat) : option A :=
  default None (arr !! i).

Record pstate := PState
  { results : list (option A);
    completed : nat;
    live : bool }.     (* the final callback has not been replaced by a no-op *)

(** An invocation of the final callback: [callback(err, results)]. *)
Record final := Final { final_err : option Js.error;
                        final_results : list (option A) }.

(** Starting [n] tasks: with none, the final callback runs at once. *)
Definition start (n : nat) : pstate * list final :=
  if (n =? 0)%nat then (PState [] 0 true, [Final None []])
  else (PState [] 0 true, []).

(** Task [i] reports [r].  Its value (undefined with an error) is
    stored at index [i]; the first error goes to the final callback at
    once, together with the array as it is then; the last success, if
    no error came before, hands over the full array. *)
Definition complete (n : nat) (st : pstate) (i : nat) (r : Js.error + A)
    : pstate * list final :=
  match r with
  | inl err =>
      let arr := array_set i None (results st) in
      if live st then (PState arr (completed st) false, [Final (Some err) arr])
      else (PState arr (completed st) false, [])
  | inr a =>
      let arr := array_set i (Some a) (results st) in
      let done := S (completed st) in
      if live st && (n <=? done)%nat then (PState arr done (live st), [Final None arr])
      else (PState arr done (live st), [])
  end.

Fixpoint completions (n : nat) (st : pstate) (sched : list (nat * (Js.error + A)))
    : pstate * list final :=
  match sched with
  | [] => (st, [])
  | (i, r) :: rest =>
      let '(st1, f1) := complete n st i r in
      let '(st2, f2) := completions n st1 rest in
      (st2, (f1 ++ f2)%list)
  end.

(** [async.parallel(tasks, callback)] for [n] tasks reporting as
    [sched] says: (task index, report) in the order of completion. *)
Definition parallel (n : nat) (sched : list (nat * (Js.error + A)))
    : pstate * list final :=
  let '(st0, f0) := start n in
  let '(st1, f1) := completions n st0 sched in
  (st1, (f0 ++ f1)%list).

(** The schedule in which tasks report in the order [order], task [i]
    reporting [outcomes !! i]. *)
Definition schedule (outcomes : list (Js.error + A)) (order : list nat)
    : list (nat * (Js.error + A)) :=
  omap (fun i => (fun r => (i, r)) <$> outcomes !! i) order.

(** The value task [i] leaves in the results array. *)
Definition stored (r : Js.error + A) : option A :=
  match r with inl _ => None | inr a => Some a end.

Definition writes (arr : list (option A)) (sched : list (nat * (Js.error + A)))
    : list (option A) :=
  foldl (fun acc x => array_set (fst x) (stored (snd x)) acc) arr sched.

Definition succeeded (x : nat * (Js.error + A)) : Prop :=
  match snd x with inl _ => False | inr _ => True end.

Fixpoint first_error (sched : list (nat * (Js.error + A))) : option Js.error :=
  match sched with
  | [] => None
  | (_, inl e) :: _ => Some e
  | (_, inr _) :: rest => first_error rest
  end.
End Parallel.
End Async.

(** ** ProvisioningOrchestrator: [provision] *)

(** [provision(options, final_cb)].  [outcomes] lists what the
    [_provision] pipeline of each request reports, [order] the order in
    which the pipelines report.  The result is every invocation of
    [final_cb]. *)
Definition provision (options : request + list request)
    (outcomes : list (Js.error + instance)) (order : list nat)
    : list (Async.final (A:=instance)) :=
  let instances := match options with inl o => [o] | inr l => l end in
  snd (Async.parallel (length instances) (Async.schedule outcomes order)).

(** ** FleetReconciler: [dropletDestroyExcept] *)

Module Reconcile.

(** An argument of a callback invocation. *)
Inductive arg :=
| ArgNull
| ArgError (e : Js.error)
| ArgArray (rs : list (option string)).

Inductive effect :=
| ListAll                          (* api.dropletGetAll *)
| Destroy (id : option Z)          (* api.dropletDestroy(id, cb) *)
| Cb (args : list arg).            (* cb(...) *)

Definition normalize (ids : Js.ident + list Js.ident) : list (option Z) :=
  map Js.parseInt (match ids with inl i => [i] | inr l => l end).

(** The identifiers pushed on [bad_ids]. *)
Definition bad_ids (ids : list (option Z)) (droplets : list instance)
    : list (option Z) :=
  List.filter (fun id => negb (Js.index_found ids id))
              (map (fun d => Js.parseInt (inst_id d)) droplets).

Definition deliver (f : Async.final (A:=string)) : effect :=
  match Async.final_err f with
  | Some err => Cb [ArgError err]
  | None => Cb [ArgArray (Async.final_results f)]
  end.

(** [dropletDestroyExcept(ids, cb)].  [listing] is the reply to the
    listing call, [outcomes] what each destroy call reports (by position
    in [bad_ids]) and [order] the order in which they report. *)
Definition dropletDestroyExcept (ids : Js.ident + list Js.ident)
    (listing : Js.error + list instance)
    (outcomes : list (Js.error + string)) (order : list nat) : list effect :=
  let ids := normalize ids in
  ListAll ::
  match listing with
  | inl err => [Cb [ArgError err]]
  | inr droplets =>
      let bad := bad_ids ids droplets in
      (map Destroy bad
         ++ map deliver (snd (Async.parallel (length bad) (Async.schedule outcomes order))))%list
  end.

Definition destroyed (effs : list effect) : list (option Z) :=
  omap (fun e => match e with Destroy id => Some id | _ => None end) effs.

Definition calls (effs : list effect) : list (list arg) :=
  omap (fun e => match e with Cb args => Some args | _ => None end) effs.

(** A success as the Node convention has it: [cb(null, value)]. *)
Definition is_success_call (args : list arg) : bool :=
  match args with
  | [ArgNull; ArgArray _] => true
  | _ => false
  end.

End Reconcile.

(** ** Observations on traces *)

Definition execs (t : list action) : list string :=
  omap (fun a => match a with Exec cmd => Some cmd | _ => None end) t.

Definition timers (t : list action) : list Z :=
  omap (fun a => match a with SetTimeout ms => Some ms | _ => None end) t.

Definition error_calls (t : list action) : list Js.error :=
  omap (fun a => match a with CalledErr _ e => Some e | _ => None end) t.

Definition success_calls (t : list action) : list (list string) :=
  omap (fun a => match a with CalledOk _ v => Some v | _ => None end) t.

Definition lookups (t : list action) : list Js.ident :=
  omap (fun a => match a with DropletGet id => Some id | _ => None end) t.

(** A program that only ever adds to the trace. *)
Definition grows {W A : Type} (p : prog W A) : Prop :=
  forall m, exists rest, trace (snd (p m)) = trace m ++ rest.

(** What [_log] adds to the trace. *)
Definition logged (opts : options) (level msg : string) : list action :=
  if enable_logging opts then [Log level msg] else [].

(** One failed copy attempt that is retried: the command, the timer, and
    what the rest of the [shell.exec] callback does before the timer
    fires. *)
Definition retried_round (opts : options) (ip script target_path cmd : string)
    : list action :=
  ([Exec cmd; SetTimeout 120000]
     ++ logged opts "info" (copy_succeeded_msg ip script)
     ++ [CalledOk "cb" [ip; target_path]])%list.

(** The last attempt of a copy that gives up. *)
Definition give_up_tail (opts : options) (cmd : string) (code : Z) : list action :=
  [Exec cmd]
    ++ logged opts "error" "Error copying provisioning script to target host"
    ++ [CalledErr "cb" (Js.Message ("scp returned with error code: " +:+ Js.num code))].

(** The world after [n] runs of the command [cmd], and the exit code of
    the run made then. *)
Definition after_attempts {W : Type} `{Collab W} (cmd : string) (n : nat) (w : W) : W :=
  Nat.iter n (fun w' => snd (shell_exec cmd w')) w.

Definition exit_code_at {W : Type} `{Collab W} (cmd : string) (n : nat) (w : W) : Z :=
  fst (fst (shell_exec cmd (after_attempts cmd n w))).

(** ** A scripted world

    The clock stands still; shell commands exit with the codes of
    [exits], one per command, then with [default]; instance lookups answer
    with [found]. *)
Record scripted := Scripted
  { clock : Z;
    exits : list Z;
    default : Z;
    found : Js.error + instance }.

Definition scripted_exec (cmd : string) (w : scripted) : (Z * string) * scripted :=
  match exits w with
  | [] => ((default w, "out"), w)
  | c :: rest => ((c, "out"), Scripted (clock w) rest (default w) (found w))
  end.

#[global] Instance scripted_collab : Collab scripted :=
  {| now_ms := clock;
     shell_exec := scripted_exec;
     api_dropletGet := fun _ w => (found w, w);
     api_dropletGetAll := fun w => (inr [], w) |}.

Definition box : instance := MkInstance (Js.Num 7) "box" "10.0.0.7".

Definition quiet : options := Options "/k/id_rsa" "/srv/scripts" false.
Definition verbose : options := Options "/k/id_rsa" "/srv/scripts" true.

(** The rsync command of a folder sync towards the host [ip]. *)
Definition rsync_cmd_for (opts : options) (f : folder) (ip : string) : string :=
  rsync_prefix opts +:+ source f +:+ " root@" +:+ ip +:+ ":"
    +:+ (if negb (String.eqb (Js.slice_last (destination f)) "/")
         then destination f +:+ "/" else destination f).

Definition is_sync_of (opts : options) (cmd : string) (f : folder) : Prop :=
  exists ip, cmd = rsync_cmd_for opts f ip.

Definition three_folders : list folder :=
  [Folder "./app" "/srv/app"; Folder "./conf" "/etc/app/"; Folder "./www" "/var/www"].

Definition sample_request : request :=
  Request "web1" (Some three_folders) (Some ["node"; "nginx"]).

Definition sample_droplet : Lifecycle.droplet := Lifecycle.Droplet box 431.

(** The instances among the reports of a batch. *)
Definition ready_of (outcomes : list (Js.error + instance)) : list instance :=
  omap (fun r => match r with inr i => Some i | inl _ => None end) outcomes.

Definition two_requests : list request :=
  [Request "web1" None None; Request "web2" None None].

Definition box2 : instance := MkInstance (Js.Num 8) "box2" "10.0.0.8".

Definition fleet : list instance :=
  [MkInstance (Js.Str "1") "a" "10.0.0.1"; MkInstance (Js.Num 2) "b" "10.0.0.2";
   MkInstance (Js.Num 3) "c" "10.0.0.3"; MkInstance (Js.Str "4") "d" "10.0.0.4"].

(** ** Construction: the settings [init] checks *)

Module Config.

(** A setting as a caller may pass it. *)
Inductive setting :=
| Missing                      (* undefined or null *)
| Text (s : string)
| Number (z : Z)
| Flag (b : bool).

(** JavaScript truthiness of a setting, as [!options.x] tests it. *)
Definition truthy (x : setting) : bool :=
  match x with
  | Missing => false
  | Text s => Js.nonempty s
  | Number z => negb (z =? 0)
  | Flag b => b
  end.

Record settings := Settings
  { client_id : setting;
    api_key : setting;
    scripts_path : setting;
    public_ssh_key : setting;
    private_ssh_key : setting;
    ssh_key_id : setting;
    enable_logging : setting }.

(** [_.isBoolean(options.enable_logging)] *)
Definition is_boolean (x : setting) : bool :=
  match x with Flag _ => true | _ => false end.

(** The checks of [init], in the order the source makes them; the
    result is the string thrown, or the settings as stored in
    [this._options] before the path is resolved.  The collaborators set
    up afterwards (logger, API client, script listing, command line) are
    not part of it. *)
Definition init (o : settings) : string + settings :=
  if negb (truthy (client_id o)) then inl "`client_id` is required"
  else if negb (truthy (api_key o)) then inl "`api_key` is required"
  else if negb (truthy (scripts_path o)) then inl "`scripts_path` is required"
  else if negb (truthy (public_ssh_key o)) then inl "`public_ssk_key` is required"
  else if negb (truthy (private_ssh_key o)) then inl "`private_ssh_key` is required"
  else if negb (truthy (ssh_key_id o)) then inl "`ssh_key_id` is required"
  else
    inr (Settings (client_id o) (api_key o) (scripts_path o) (public_ssh_key o)
                  (private_ssh_key o) (ssh_key_id o)
                  (if negb (is_boolean (enable_logging o)) then Flag true
                   else enable_logging o)).

Definition required (o : settings) : list setting :=
  [client_id o; api_key o; scripts_path o; public_ssh_key o;
   private_ssh_key o; ssh_key_id o].

End Config.

(** ** [runInstanceCommand] and [getDropletByName] *)

(** An instance lookup that may answer with no instance at all. *)
Class Lookup (W : Type) := {
  api_find : Js.ident -> W -> (Js.error + option instance) * W;
}.

Section Commands.
Context {W : Type} `{Collab W} `{Lookup W} (opts : options).
Local Open Scope prog_scope.

(** The command line [runInstanceCommand] builds around [cmd]. *)
Definition remote_cmd_of (ip cmd : string) : string :=
  "ssh root@" +:+ ip +:+ " -i " +:+ private_ssh_key opts +:+ ssh_flags
    +:+ " -q " +:+ dquote +:+ cmd +:+ dquote.

Definition runInstanceCommand (instance_id : Js.ident) (cmd : string)
    (cb : Js.error + string -> prog W unit) : prog W unit :=
  emit (DropletGet instance_id);;
  let* r := ask (api_find instance_id) in
  match r with
  | inl err => cb (inl err)
  | inr None =>
      cb (inl (Js.Message ("Unable to locate instance_id: "
                             +:+ Js.to_string instance_id)))
  | inr (Some inst) =>
      let cmd := remote_cmd_of (ip_address inst) cmd in
      _log opts "info"
           ("Running command `" +:+ cmd +:+ "` against ip_address: "
              +:+ ip_address inst);;
      emit (Exec cmd);;
      let* x := ask (shell_exec cmd) in
      if negb (fst x =? 0)%Z then
        _log opts "error" "Error executing remote provisioning script";;
        cb (inl (Js.Message ("ssh returned with error code: " +:+ Js.num (fst x))))
      else
        _log opts "info"
             ("Execution of command `" +:+ cmd +:+ "` against ip_address "
                +:+ ip_address inst +:+ " succeeded");;
        cb (inr (snd x))
  end.

(** [_.findWhere(droplets, {name: name})]: the first droplet of that
    name, or undefined. *)
Definition findWhere_name (droplets : list instance) (name : string)
    : option instance :=
  List.find (fun d => String.eqb (inst_name d) name) droplets.

Definition getDropletByName (name : string)
    (cb : Js.error + option instance -> prog W unit) : prog W unit :=
  emit DropletGetAll;;
  let* r := ask api_dropletGetAll in
  match r with
  | inl err => cb (inl err)
  | inr droplets => cb (inr (findWhere_name droplets name))
  end.

Definition record_found (r : Js.error + option instance) : prog W unit :=
  match r with
  | inl err => emit (CalledErr "cb" err)
  | inr None => emit (CalledOk "cb" [])
  | inr (Some d) => emit (CalledOk "cb" [Js.to_string (inst_id d); inst_name d])
  end.

Definition record_results (r : Js.error + list (list string)) : prog W unit :=
  match r with
  | inl err => emit (CalledErr "final_cb" err)
  | inr rs => emit (CalledOk "final_cb" (concat rs))
  end.
End Commands.

(** ** [listDroplets]: what becomes of a field before it is tabulated *)

Module Table.

(** A droplet field as the API hands it over. *)
Inductive cell :=
| CUndefined
| CNull
| CBool (b : bool)
| CNum (z : Z)
| CNaN
| CStr (s : string).

(** [!v] *)
Definition falsy (v : cell) : bool :=
  match v with
  | CUndefined | CNull | CNaN => true
  | CBool b => negb b
  | CNum z => (z =? 0)
  | CStr s => negb (Js.nonempty s)
  end.

(** The body of the inner [_.each] of [listDroplets]. *)
Definition shown (v : cell) : cell :=
  match v with
  | CBool false => CStr "No"
  | _ =>
      if falsy v then CStr "N/A"
      else match v with
           | CBool true => CStr "Yes"
           | _ => v
           end
  end.

Definition is_boolean (v : cell) : bool :=
  match v with CBool _ => true | _ => false end.

End Table.

(** ** More observations on traces *)

Definition is_log (a : action) : bool :=
  match a with Log _ _ => true | _ => false end.

(** A program that writes no log line. *)
Definition logless {W A : Type} (p : prog W A) : Prop :=
  forall m, Forall (fun a => is_log a = false) (trace m) ->
            Forall (fun a => is_log a = false) (trace (snd (p m))).

Definition callbacks (t : list action) : list action :=
  List.filter (fun a => match a with
                        | CalledErr _ _ | CalledOk _ _ => true
                        | _ => false
                        end) t.

(** The two commands of one script's pipeline on the host [ip], staged
    at [tp]. *)
Definition pipeline_cmds (opts : options) (script : string) (stage : string * string)
    : list string :=
  [copy_cmd_of opts (fst stage) script (snd stage); script_cmd_of opts (fst stage) (snd stage)].

(** ** More worlds *)

(** A world in which every lookup finds [box] and every command exits
    with 0; the state is the clock. *)
#[global] Instance steady_collab : Collab Z :=
  {| now_ms := fun w => w;
     shell_exec := fun _ w => ((0, "ok"), w + 250);
     api_dropletGet := fun _ w => (inr box, w);
     api_dropletGetAll := fun w => (inr [box], w) |}.

#[global] Instance steady_lookup : Lookup Z :=
  {| api_find := fun _ w => (inr (Some box), w) |}.

#[global] Instance scripted_lookup : Lookup scripted :=
  {| api_find := fun _ w =>
       (match found w with inl e => inl e | inr i => inr (Some i) end, w) |}.


(** Events of a provisioning run that deliver its outcome. *)
Definition is_outcome (eff : Lifecycle.effect) : bool :=
  match eff with
  | Lifecycle.FinalCb _ | Lifecycle.Configure _ => true
  | _ => false
  end.

Definition is_configure (eff : Lifecycle.effect) : bool :=
  match eff with Lifecycle.Configure _ => true | _ => false end.


Definition port_opened (evs : list (Z * Lifecycle.event)) : Prop :=
  exists clock_ms, In (clock_ms, Lifecycle.PortOpened) evs.

Definition settle_fired (evs : list (Z * Lifecycle.event)) : Prop :=
  exists clock_ms, In (clock_ms, Lifecycle.SettleFired) evs.

Definition create_failed (evs : list (Z * Lifecycle.event)) : Prop :=
  exists clock_ms err, In (clock_ms, Lifecycle.CreateReplied (inl err)) evs.

(** A world whose listing call answers with [listing] and in which
    everything else succeeds. *)
Record catalogue := Catalogue { listing : Js.error + list instance }.

#[global] Instance catalogue_collab : Collab catalogue :=
  {| now_ms := fun _ => 0;
     shell_exec := fun _ w => ((0, "ok"), w);
     api_dropletGet := fun _ w => (inr box, w);
     api_dropletGetAll := fun w => (listing w, w) |}.

Definition bare_request : request := Request "web1" None (Some []).

(** The number of outcomes among the effects of a run. *)
Definition outcomes_delivered (effs : list Lifecycle.effect) : nat :=
  length (List.filter is_outcome effs).

(** What the stages in flight of a run say about the events so far. *)
Definition stages_follow (hist : list (Z * Lifecycle.event)) (st : Lifecycle.state) : Prop :=
  ((0 < Lifecycle.port_waits st)%nat -> Lifecycle.observed_done hist)
  /\ ((0 < Lifecycle.settles st)%nat ->
      Lifecycle.observed_done hist /\ port_opened hist).

(** Once an outcome is out, the interval is cleared. *)
Definition settled (st : Lifecycle.state) : Prop :=
  Lifecycle.polling_started st
  /\ ((0 < Lifecycle.port_waits st)%nat -> Lifecycle.created st <> None)
  /\ (Lifecycle.called st = true -> Lifecycle.disarmed st).

(** * Properties *)

(** ** Strings *)

Lemma string_app_assoc (a b c : string) : (a +:+ b) +:+ c = a +:+ (b +:+ c).
Proof.
  induction a as [|x a IH]; [reflexivity|].
  change (String x ((a +:+ b) +:+ c) = String x (a +:+ (b +:+ c))).
  now rewrite IH.
Qed.

(** ** Monad steps *)

Section MonadFacts.
Context {W : Type}.

Lemma bind_ret {A B} (a : A) (k : A -> prog W B) m : bind (ret a) k m = k a m.
Proof. reflexivity. Qed.

Lemma bind_emit {B} (a : action) (k : unit -> prog W B) m :
  bind (emit a) k m = k tt (Machine (world m) (trace m ++ [a])).
Proof. reflexivity. Qed.

Lemma bind_ask {A B} (f : W -> A * W) (k : A -> prog W B) m :
  bind (ask f) k m =
    k (fst (f (world m))) (Machine (snd (f (world m))) (trace m)).
Proof. unfold bind, ask. destruct (f (world m)); reflexivity. Qed.

Lemma bind_read {A B} (f : W -> A) (k : A -> prog W B) m :
  bind (read f) k m = k (f (world m)) m.
Proof. reflexivity. Qed.

Lemma bind_throw {A B} e (k : A -> prog W B) m : bind (throw e) k m = (Thrown e, m).
Proof. reflexivity. Qed.

Lemma bind_log {B} opts level msg (k : unit -> prog W B) m :
  bind (_log opts level msg) k m =
    k tt (Machine (world m) (trace m ++ logged opts level msg)).
Proof.
  unfold _log, logged. destruct (enable_logging opts); [reflexivity|].
  rewrite bind_ret, app_nil_r. destruct m; reflexivity.
Qed.
End MonadFacts.

(** ** Observations distribute over traces *)

Lemma execs_app a b : execs (a ++ b) = execs a ++ execs b.
Proof. apply omap_app. Qed.

Lemma timers_app a b : timers (a ++ b) = timers a ++ timers b.
Proof. apply omap_app. Qed.

Lemma error_calls_app a b : error_calls (a ++ b) = error_calls a ++ error_calls b.
Proof. apply omap_app. Qed.

Lemma success_calls_app a b :
  success_calls (a ++ b) = success_calls a ++ success_calls b.
Proof. apply omap_app. Qed.

Lemma lookups_app a b : lookups (a ++ b) = lookups a ++ lookups b.
Proof. apply omap_app. Qed.

Lemma logged_silent opts level msg :
  execs (logged opts level msg) = [] /\ timers (logged opts level msg) = []
  /\ error_calls (logged opts level msg) = []
  /\ success_calls (logged opts level msg) = [].
Proof. unfold logged. destruct (enable_logging opts); repeat split. Qed.

(** ** RemoteExecutor *)

Section KopyFacts.
Context {W : Type} `{Collab W} (opts : options).
Variables (ip script tp cmd : string).

Lemma exit_code_at_0 (w : W) :
  exit_code_at cmd 0 w = fst (fst (shell_exec cmd w)).
Proof. reflexivity. Qed.

(** With every attempt failing, [kopy] entered with [attempts] attempts
    behind it retries until the count passes 10. *)
Lemma kopy_failing :
  forall (k attempts fuel : nat) (m : machine W),
    (attempts + k = 10)%nat -> (k < fuel)%nat ->
    (forall j, (j <= k)%nat -> exit_code_at cmd j (world m) <> 0) ->
    exists w', exit_code_at cmd k (world m) <> 0 /\
      kopy opts ip script tp cmd record_copy fuel attempts m =
        (Returned tt,
         Machine w' (trace m
                       ++ concat (replicate k (retried_round opts ip script tp cmd))
                       ++ give_up_tail opts cmd (exit_code_at cmd k (world m)))).
Proof.
  induction k as [|k IH]; intros attempts fuel m Hk Hfuel Hfail.
  - destruct fuel as [|fuel]; [lia|]. cbn [kopy].
    rewrite bind_emit, bind_ask. cbn [world trace].
    pose proof (Hfail 0%nat (Nat.le_refl _)) as Hc.
    rewrite exit_code_at_0 in *. clear Hfail.
    destruct (shell_exec cmd (world m)) as [[code out] w1]. cbn [fst snd] in *.
    apply Z.eqb_neq in Hc as Hb. rewrite Hb. cbn [negb].
    replace (10 <? S attempts)%nat with true by (symmetry; apply Nat.ltb_lt; lia).
    rewrite bind_log. cbn [world trace record_copy]. unfold emit. cbn [world trace].
    exists w1. split; [exact Hc|].
    unfold give_up_tail. cbn [replicate concat]. cbn [app].
    rewrite <- !app_assoc. reflexivity.
  - destruct fuel as [|fuel]; [lia|]. cbn [kopy].
    rewrite bind_emit, bind_ask. cbn [world trace].
    pose proof (Hfail 0%nat (Nat.le_0_l _)) as Hc.
    assert (Hshift : forall j, exit_code_at cmd (S j) (world m)
              = exit_code_at cmd j (snd (shell_exec cmd (world m)))).
    { intros j. unfold exit_code_at, after_attempts. now rewrite Nat.iter_succ_r. }
    rewrite exit_code_at_0 in Hc.
    rewrite Hshift.
    destruct (shell_exec cmd (world m)) as [[code out] w1]. cbn [fst snd] in *.
    apply Z.eqb_neq in Hc as Hb. rewrite Hb. cbn [negb].
    replace (10 <? S attempts)%nat with false by (symmetry; apply Nat.ltb_ge; lia).
    rewrite bind_emit, bind_log. cbn [world trace record_copy].
    rewrite bind_emit. cbn [world trace].
    destruct (IH (S attempts) fuel
                (Machine w1 ((((trace m ++ [Exec cmd]) ++ [SetTimeout 120000])
                                ++ logged opts "info" (copy_succeeded_msg ip script))
                               ++ [CalledOk "cb" [ip; tp]])))
      as (w' & Hne & Hrun); [lia | lia | |].
    { intros j Hj. cbn [world]. rewrite <- Hshift. apply Hfail. lia. }
    cbn [world] in *.
    exists w'. split; [exact Hne|]. cbn beta. cbn [copied_ip copied_target].
    rewrite Hrun. cbn [trace].
    f_equal. f_equal. cbn [replicate concat]. unfold retried_round.
    rewrite <- !app_assoc. reflexivity.
Qed.

(** A failed attempt with at most ten made: the timer is armed, the
    callback is invoked as for a success, and [kopy] runs again. *)
Lemma kopy_retry (cb : Js.error + copied -> prog W unit)
    (fuel attempts : nat) (m : machine W) :
  fst (fst (shell_exec cmd (world m))) <> 0 -> (S attempts <= 10)%nat ->
  kopy opts ip script tp cmd cb (S fuel) attempts m =
    bind (cb (inr (Copied ip tp)))
         (fun _ => kopy opts ip script tp cmd cb fuel (S attempts))
         (Machine (snd (shell_exec cmd (world m)))
                  (trace m ++ [Exec cmd; SetTimeout 120000]
                     ++ logged opts "info" (copy_succeeded_msg ip script))).
Proof.
  intros Hc Hle. cbn [kopy]. rewrite bind_emit, bind_ask. cbn [world trace].
  apply Z.eqb_neq in Hc. rewrite Hc. cbn [negb].
  replace (10 <? S attempts)%nat with false by (symmetry; apply Nat.ltb_ge; lia).
  rewrite bind_emit, bind_log. cbn [world trace].
  rewrite <- !app_assoc. reflexivity.
Qed.

(** With the first attempt succeeding, [kopy] reports and stops. *)
Lemma kopy_first_try (fuel : nat) (m : machine W) :
  fst (fst (shell_exec cmd (world m))) = 0 ->
  kopy opts ip script tp cmd record_copy (S fuel) 0 m =
    (Returned tt,
     Machine (snd (shell_exec cmd (world m)))
             (trace m ++ [Exec cmd]
                ++ logged opts "info" (copy_succeeded_msg ip script)
                ++ [CalledOk "cb" [ip; tp]])).
Proof.
  intros Hc. cbn [kopy]. rewrite bind_emit, bind_ask. cbn [world trace].
  rewrite Hc. cbn [Z.eqb negb]. rewrite bind_log. cbn [world trace record_copy].
  unfold emit. cbn [world trace copied_ip copied_target]. rewrite <- !app_assoc. reflexivity.
Qed.
End KopyFacts.

Section RoundFacts.
Variables (opts : options) (ip script tp cmd : string).

Lemma execs_rounds (k : nat) :
  execs (concat (replicate k (retried_round opts ip script tp cmd)))
    = replicate k cmd.
Proof.
  induction k as [|k IH]; [reflexivity|].
  cbn [replicate concat]. rewrite execs_app, IH. unfold retried_round.
  rewrite !execs_app. destruct (logged_silent opts "info" (copy_succeeded_msg ip script))
    as (-> & _). reflexivity.
Qed.

Lemma timers_rounds (k : nat) :
  timers (concat (replicate k (retried_round opts ip script tp cmd)))
    = replicate k 120000.
Proof.
  induction k as [|k IH]; [reflexivity|].
  cbn [replicate concat]. rewrite timers_app, IH. unfold retried_round.
  rewrite !timers_app. destruct (logged_silent opts "info" (copy_succeeded_msg ip script))
    as (_ & -> & _). reflexivity.
Qed.

Lemma error_calls_rounds (k : nat) :
  error_calls (concat (replicate k (retried_round opts ip script tp cmd))) = [].
Proof.
  induction k as [|k IH]; [reflexivity|].
  cbn [replicate concat]. rewrite error_calls_app, IH. unfold retried_round.
  rewrite !error_calls_app.
  destruct (logged_silent opts "info" (copy_succeeded_msg ip script))
    as (_ & _ & -> & _). reflexivity.
Qed.

Lemma give_up_tail_seen (code : Z) :
  execs (give_up_tail opts cmd code) = [cmd]
  /\ timers (give_up_tail opts cmd code) = []
  /\ error_calls (give_up_tail opts cmd code)
     = [Js.Message ("scp returned with error code: " +:+ Js.num code)].
Proof.
  unfold give_up_tail.
  rewrite !execs_app, !timers_app, !error_calls_app.
  destruct (logged_silent opts "error" "Error copying provisioning script to target host")
    as (-> & -> & -> & _).
  repeat split.
Qed.
End RoundFacts.

(** C3.  When every copy attempt fails, the copy step makes exactly 11
    attempts, arms the 120000 ms timer once between any two consecutive
    attempts (10 timers), and reports the transfer error once, as the last
    thing it does.  When the first attempt succeeds, it makes exactly one
    attempt, arms no timer and reports no error. *)
Theorem copy_attempt_budget {W : Type} `{Collab W}
    (opts : options) (ip script : string) (w : W) :
  let tp := target_path_at script (now_ms w) in
  let cmd := copy_cmd_of opts ip script tp in
  let opening :=
    logged opts "info" ("Copy script `" +:+ script +:+ "` to ip_address: " +:+ ip) in
  let result := run (_copyInstanceScript opts ip script record_copy) w in
  ((forall n, (n < 11)%nat -> exit_code_at cmd n w <> 0) ->
     fst result = Returned tt
     /\ trace (snd result)
        = opening ++ concat (replicate 10 (retried_round opts ip script tp cmd))
            ++ give_up_tail opts cmd (exit_code_at cmd 10 w)
     /\ execs (trace (snd result)) = replicate 11 cmd
     /\ timers (trace (snd result)) = replicate 10 120000
     /\ error_calls (trace (snd result))
        = [Js.Message ("scp returned with error code: "
                         +:+ Js.num (exit_code_at cmd 10 w))])
  /\ (exit_code_at cmd 0 w = 0 ->
     fst result = Returned tt
     /\ execs (trace (snd result)) = [cmd]
     /\ timers (trace (snd result)) = []
     /\ error_calls (trace (snd result)) = []
     /\ success_calls (trace (snd result)) = [[ip; tp]]).
Proof.
  intros tp cmd opening result.
  assert (Hrun : result =
            kopy opts ip script tp cmd record_copy 11 0
                 (Machine w opening)).
  { subst result. unfold run, _copyInstanceScript.
    rewrite bind_read. cbn [world]. rewrite bind_log. reflexivity. }
  split.
  - intros Hfail.
    destruct (kopy_failing opts ip script tp cmd 10 0 11 (Machine w opening))
      as (w' & _ & Hk); [lia | lia | |].
    { intros j Hj. apply Hfail. lia. }
    rewrite Hrun, Hk. cbn [fst snd world trace].
    split; [reflexivity|]. split; [reflexivity|].
    rewrite !execs_app, !timers_app, !error_calls_app.
    rewrite execs_rounds, timers_rounds, error_calls_rounds.
    destruct (give_up_tail_seen opts cmd (exit_code_at cmd 10 w)) as (-> & -> & ->).
    subst opening.
    destruct (logged_silent opts "info"
                ("Copy script `" +:+ script +:+ "` to ip_address: " +:+ ip))
      as (-> & -> & -> & _).
    repeat split.
  - intros Hok. rewrite exit_code_at_0 in Hok.
    rewrite Hrun, kopy_first_try by exact Hok. cbn [fst snd world trace].
    split; [reflexivity|].
    rewrite !execs_app, !timers_app, !error_calls_app, !success_calls_app.
    subst opening.
    destruct (logged_silent opts "info"
                ("Copy script `" +:+ script +:+ "` to ip_address: " +:+ ip))
      as (-> & -> & -> & ->).
    destruct (logged_silent opts "info" (copy_succeeded_msg ip script))
      as (-> & -> & -> & ->).
    repeat split.
Qed.

Lemma copy_attempt_budget_witness :
  execs (trace (snd (run (_copyInstanceScript verbose "10.0.0.7" "setup.sh" record_copy)
                         (Scripted 5000 [] 1 (inr box)))))
    = replicate 11 (copy_cmd_of verbose "10.0.0.7" "setup.sh"
                      (target_path_at "setup.sh" 5000))
  /\ execs (trace (snd (run (_copyInstanceScript verbose "10.0.0.7" "setup.sh" record_copy)
                            (Scripted 5000 [] 0 (inr box)))))
    = [copy_cmd_of verbose "10.0.0.7" "setup.sh" (target_path_at "setup.sh" 5000)].
Proof.
  split.
  - pose proof (copy_attempt_budget verbose "10.0.0.7" "setup.sh"
                  (Scripted 5000 [] 1 (inr box))) as Hthm.
    cbv zeta in Hthm. destruct Hthm as [Hfail _].
    destruct Hfail as (_ & _ & Hexecs & _); [|exact Hexecs].
    intros n Hn.
    do 11 (destruct n as [|n]; [vm_compute; discriminate|]). lia.
  - pose proof (copy_attempt_budget verbose "10.0.0.7" "setup.sh"
                  (Scripted 5000 [] 0 (inr box))) as Hthm.
    cbv zeta in Hthm. destruct Hthm as [_ Hok].
    destruct Hok as (_ & Hexecs & _); [reflexivity | exact Hexecs].
Defined.

(** C9.  Two invocations for the same script derive the same staging path
    exactly when their clock readings fall in the same whole second: the
    paths are distinct if and only if the unix timestamps differ. *)
Theorem staging_path_same_iff_same_second (script : string) (t1 t2 : Z) :
  target_path_at script t1 = target_path_at script t2
  <-> Js.unix t1 = Js.unix t2.
Proof.
  unfold target_path_at. split.
  - intros Heq.
    repeat (apply (inj (String.app _)) in Heq).
    apply (inj pretty) in Heq. exact Heq.
  - intros ->. reflexivity.
Qed.

(** Two invocations half a second apart share a staging path. *)
Lemma staging_path_collision :
  ~ (forall (script : string) (t1 t2 : Z),
        t1 <> t2 -> target_path_at script t1 <> target_path_at script t2).
Proof.
  intros Hclaim.
  apply (Hclaim "setup.sh" 1000 1500); [lia | reflexivity].
Qed.

(** C1.  On the host where the first copy attempt exits with 1, the
    pipeline arms the retry timer and then goes on to run the staged
    script: the ssh command is issued although no copy attempt has
    succeeded. *)
Theorem failed_copy_still_executes :
  let w := Scripted 5000 [1] 0 (inr box) in
  let tp := target_path_at "setup.sh" 5000 in
  let scp := copy_cmd_of quiet "10.0.0.7" "setup.sh" tp in
  exit_code_at scp 0 w = 1
  /\ firstn 4 (trace (snd (run (executeInstanceScript quiet (Js.Num 7) "setup.sh"
                                  record_output) w)))
     = [DropletGet (Js.Num 7); Exec scp; SetTimeout 120000;
        Exec (script_cmd_of quiet "10.0.0.7" tp)].
Proof. split; reflexivity. Qed.




(** ** The pipeline as a whole *)

Section PipelineFacts.
Context {W : Type} `{Collab W} (opts : options).

Lemma bind_assoc {A B C} (p : prog W A) (k : A -> prog W B) (k' : B -> prog W C) m :
  bind (bind p k) k' m = bind p (fun a => bind (k a) k') m.
Proof.
  unfold bind. destruct (p m) as [[a| |] m1]; reflexivity.
Qed.

Lemma grows_ret {A} (a : A) : grows (ret (W:=W) a).
Proof. intros m. exists []. cbn. now rewrite app_nil_r. Qed.

Lemma grows_throw {A} e : grows (throw (W:=W) (A:=A) e).
Proof. intros m. exists []. cbn. now rewrite app_nil_r. Qed.

Lemma grows_out_of_fuel {A} : grows (out_of_fuel (W:=W) (A:=A)).
Proof. intros m. exists []. cbn. now rewrite app_nil_r. Qed.

Lemma grows_emit a : grows (emit (W:=W) a).
Proof. intros m. exists [a]. reflexivity. Qed.

Lemma grows_ask {A} (f : W -> A * W) : grows (ask f).
Proof.
  intros m. exists []. unfold ask. destruct (f (world m)). cbn.
  now rewrite app_nil_r.
Qed.

Lemma grows_bind {A B} (p : prog W A) (k : A -> prog W B) :
  grows p -> (forall a, grows (k a)) -> grows (bind p k).
Proof.
  intros Hp Hk m. unfold bind. destruct (Hp m) as [r1 Hr1].
  destruct (p m) as [[a| |] m1]; cbn [snd] in *.
  - destruct (Hk a m1) as [r2 Hr2]. exists (r1 ++ r2).
    rewrite Hr2, Hr1, app_assoc. reflexivity.
  - exists r1. exact Hr1.
  - exists r1. exact Hr1.
Qed.

Lemma grows_log level msg : grows (_log (W:=W) opts level msg).
Proof. unfold _log. destruct (enable_logging opts); [apply grows_emit | apply grows_ret]. Qed.

Lemma grows_record_output r : grows (record_output (W:=W) r).
Proof. destruct r; apply grows_emit. Qed.

Lemma grows_record_copy r : grows (record_copy (W:=W) r).
Proof. destruct r; apply grows_emit. Qed.

Lemma grows_kopy ip script tp cmd (cb : Js.error + copied -> prog W unit) :
  (forall r, grows (cb r)) ->
  forall fuel attempts, grows (kopy opts ip script tp cmd cb fuel attempts).
Proof.
  intros Hcb. induction fuel as [|fuel IH]; intros attempts; cbn [kopy].
  - apply grows_out_of_fuel.
  - apply grows_bind; [apply grows_emit|]. intros _.
    apply grows_bind; [apply grows_ask|]. intros r.
    destruct (negb (fst r =? 0)).
    + destruct (10 <? S attempts)%nat.
      * apply grows_bind; [apply grows_log | intros _; apply Hcb].
      * apply grows_bind; [apply grows_emit|]. intros _.
        apply grows_bind; [apply grows_log|]. intros _.
        apply grows_bind; [apply Hcb | intros _; apply IH].
    + apply grows_bind; [apply grows_log | intros _; apply Hcb].
Qed.

Lemma grows_execute ip script_path (cb : Js.error + string -> prog W unit) :
  (forall r, grows (cb r)) ->
  grows (_executeExistingInstanceScript opts ip script_path cb).
Proof.
  intros Hcb. unfold _executeExistingInstanceScript.
  apply grows_bind; [apply grows_log|]. intros _.
  apply grows_bind; [apply grows_emit|]. intros _.
  apply grows_bind; [apply grows_ask|]. intros r.
  destruct (negb (fst r =? 0)).
  - destruct (in_scope exec_callback_scope "cmd").
    + apply grows_bind; [apply grows_log | intros _; apply Hcb].
    + apply grows_throw.
  - apply grows_bind; [apply grows_log | intros _; apply Hcb].
Qed.

(** The copy step always comes to an end within its eleven attempts:
    the unfolding bound of [_copyInstanceScript] is never reached. *)
Lemma copy_always_returns ip script tp cmd :
  forall (fuel attempts : nat) (m : machine W),
    (attempts <= 10)%nat -> (11 <= attempts + fuel)%nat ->
    fst (kopy opts ip script tp cmd record_copy fuel attempts m) = Returned tt.
Proof.
  induction fuel as [|fuel IH]; intros attempts m Hle Hfuel; [lia|].
  cbn [kopy]. rewrite bind_emit, bind_ask. cbn [world trace].
  destruct (negb (fst (fst (shell_exec cmd (world m))) =? 0)).
  - destruct (Nat.ltb_spec 10 (S attempts)).
    + rewrite bind_log. reflexivity.
    + rewrite bind_emit, bind_log. cbn [world trace record_copy].
      rewrite bind_emit. apply IH; lia.
  - rewrite bind_log. reflexivity.
Qed.

(** Whenever the instance is found and the first copy attempt fails,
    the pipeline arms the retry timer and then issues the ssh command
    that runs the staged script: no copy attempt has succeeded. *)
Lemma copy_failure_reaches_execution (instance_id : Js.ident) (script : string)
    (w : W) (inst : instance) :
  fst (api_dropletGet instance_id w) = inr inst ->
  let w1 := snd (api_dropletGet instance_id w) in
  let tp := target_path_at script (now_ms w1) in
  let scp := copy_cmd_of opts (ip_address inst) script tp in
  exit_code_at scp 0 w1 <> 0 ->
  exists before between rest,
    trace (snd (run (executeInstanceScript opts instance_id script record_output) w))
      = before ++ [Exec scp; SetTimeout 120000] ++ between
          ++ [Exec (script_cmd_of opts (ip_address inst) tp)] ++ rest
    /\ execs before = [] /\ execs between = [].
Proof.
  intros Hfound w1 tp scp Hfail. rewrite exit_code_at_0 in Hfail.
  unfold run, executeInstanceScript.
  rewrite bind_log, bind_emit, bind_ask. cbn [world trace].
  rewrite Hfound. fold w1. unfold _copyInstanceScript.
  rewrite bind_read. cbn [world]. fold tp. fold scp.
  rewrite bind_log. cbn [world trace].
  rewrite kopy_retry by first [exact Hfail | lia].
  cbn [world trace]. unfold _executeExistingInstanceScript at 1.
  rewrite bind_assoc, bind_log. cbn [world trace].
  rewrite bind_assoc, bind_emit. cbn [world trace].
  match goal with
  | |- context [trace (snd (?p ?m))] =>
      assert (Hg : grows p); [|destruct (Hg m) as [rest Hrest]]
  end.
  { apply grows_bind.
    - apply grows_bind; [apply grows_ask|]. intros r.
      destruct (negb (fst r =? 0)).
      + destruct (in_scope exec_callback_scope "cmd").
        * apply grows_bind; [apply grows_log|]. intros _.
          apply grows_record_output.
        * apply grows_throw.
      + apply grows_bind; [apply grows_log|]. intros _. apply grows_record_output.
    - intros _. apply grows_kopy. intros [err|c].
      + apply grows_record_output.
      + apply grows_execute. intros [e|o]; apply grows_record_output. }
  rewrite Hrest. cbn [trace].
  exists (logged opts "info"
            ("Executing `" +:+ script +:+ "` script against instance_id: "
               +:+ Js.to_string instance_id)
            ++ [DropletGet instance_id]
            ++ logged opts "info"
                 ("Copy script `" +:+ script +:+ "` to ip_address: " +:+ ip_address inst)),
         (logged opts "info" (copy_succeeded_msg (ip_address inst) script)
            ++ logged opts "info"
                 ("Executing script `" +:+ tp +:+ "` against ip_address: "
                    +:+ ip_address inst)),
         rest.
  split; [rewrite <- !app_assoc; reflexivity|].
  rewrite !execs_app.
  destruct (logged_silent opts "info"
    ("Executing `" +:+ script +:+ "` script against instance_id: "
       +:+ Js.to_string instance_id)) as (-> & _).
  destruct (logged_silent opts "info"
    ("Copy script `" +:+ script +:+ "` to ip_address: " +:+ ip_address inst))
    as (-> & _).
  destruct (logged_silent opts "info" (copy_succeeded_msg (ip_address inst) script))
    as (-> & _).
  destruct (logged_silent opts "info"
    ("Executing script `" +:+ tp +:+ "` against ip_address: " +:+ ip_address inst))
    as (-> & _).
  split; reflexivity.
Qed.
End PipelineFacts.

(** ** Folder synchronisation *)

(** C10.  [copyFolder] and [syncFolders] are the same program: for every
    instance identifier, source, destination and callback they make the
    same lookup, normalise the destination the same way, run the same
    rsync command and hand the callback the same result or error. *)
Theorem copyFolder_is_syncFolders {W : Type} `{Collab W} (opts : options)
    (instance_id : Js.ident) (src dest : string)
    (cb : Js.error + string -> prog W unit) :
  copyFolder opts instance_id src dest cb = syncFolders opts instance_id src dest cb
  /\ forall m : machine W,
       copyFolder opts instance_id src dest cb m
       = syncFolders opts instance_id src dest cb m.
Proof. split; [reflexivity | intros m; reflexivity]. Qed.

(** ** InstanceConfigurator *)

Section ConfigureFacts.
Context {W : Type} `{Collab W} (opts : options) (inst : instance).

(** [copyFolder] does what [sync_one] says and reports accordingly. *)
Lemma copyFolder_sync_one (f : folder)
    (cb : Js.error + string -> prog W unit) (m : machine W) :
  exists out,
    copyFolder opts (inst_id inst) (source f) (destination f) cb m =
      cb (match snd (sync_one opts inst f (world m)) with
          | Some err => inl err
          | None => inr out
          end)
         (Machine (snd (fst (sync_one opts inst f (world m))))
                  (trace m ++ fst (fst (sync_one opts inst f (world m))))).
Proof.
  unfold copyFolder, sync_one. rewrite bind_emit, bind_ask. cbn [world trace].
  destruct (api_dropletGet (inst_id inst) (world m)) as [[err|found] w1];
    cbn [fst snd].
  - exists EmptyString. reflexivity.
  - rewrite bind_emit, bind_ask. cbn [world trace].
    destruct (shell_exec _ w1) as [[code out] w2]. cbn [fst snd].
    exists out. rewrite <- app_assoc.
    destruct (negb (code =? 0)); reflexivity.
Qed.

(** The series of folder syncs does what [sync_all] says. *)
Lemma series_folders (callback : Js.error + list string -> prog W unit) :
  (forall l l', callback (inr l) = callback (inr l')) ->
  forall (fs : list folder) (acc : list string) (m : machine W),
    series
      (map (fun f cb => copyFolder opts (inst_id inst) (source f) (destination f) cb) fs)
      acc callback m
    = callback (match snd (sync_all opts inst fs (world m)) with
                | Some err => inl err
                | None => inr []
                end)
               (Machine (snd (fst (sync_all opts inst fs (world m))))
                        (trace m ++ snd (fst (fst (sync_all opts inst fs (world m)))))).
Proof.
  intros Hignore. induction fs as [|f fs IH]; intros acc m.
  - cbn [map series sync_all fst snd]. rewrite app_nil_r.
    rewrite (Hignore (rev acc) []). destruct m; reflexivity.
  - cbn [map series sync_all].
    destruct (copyFolder_sync_one f
                (fun r => match r with
                          | inl err => callback (inl err)
                          | inr a =>
                              series
                                (map (fun f cb => copyFolder opts (inst_id inst)
                                                    (source f) (destination f) cb) fs)
                                (a :: acc) callback
                          end) m) as [out ->].
    destruct (sync_one opts inst f (world m)) as [[acts w1] [err|]]; cbn [fst snd].
    + reflexivity.
    + rewrite IH. cbn [world trace].
      destruct (sync_all opts inst fs w1) as [[[n acts'] w2] r]. cbn [fst snd].
      rewrite app_assoc. reflexivity.
Qed.

Lemma sync_one_actions (f : folder) (w : W) :
  let acts := fst (fst (sync_one opts inst f w)) in
  Forall (fun a => is_script_action a = false) acts
  /\ lookups acts = [inst_id inst]
  /\ (execs acts = [] \/ exists ip, execs acts = [rsync_cmd_for opts f ip]).
Proof.
  unfold sync_one.
  destruct (api_dropletGet (inst_id inst) w) as [[err|found] w1]; cbn [fst snd].
  - repeat split; [repeat constructor | left; reflexivity].
  - destruct (shell_exec _ w1) as [[code out] w2]. cbn [fst snd].
    repeat split; [repeat constructor | right; exists (ip_address found); reflexivity].
Qed.

(** What [sync_all] does: only folder-sync actions, one lookup per sync
    started, the rsync commands those of the folders in the order
    supplied, nothing started after a failure, everything synced
    without one. *)
Lemma sync_all_shape (fs : list folder) (w : W) :
  let n := fst (fst (fst (sync_all opts inst fs w))) in
  let acts := snd (fst (fst (sync_all opts inst fs w))) in
  let r := snd (sync_all opts inst fs w) in
  Forall (fun a => is_script_action a = false) acts
  /\ (n <= length fs)%nat
  /\ lookups acts = replicate n (inst_id inst)
  /\ Forall2 (is_sync_of opts) (execs acts) (take (length (execs acts)) fs)
  /\ (r = None -> n = length fs)
  /\ (r <> None -> forall later,
        sync_all opts inst (take n fs ++ later) w = sync_all opts inst fs w).
Proof.
  revert w. induction fs as [|f fs IH]; intros w.
  - cbn. repeat split; try constructor. intros Hr. contradiction.
  - cbn [sync_all].
    pose proof (sync_one_actions f w) as (Hs1 & Hl1 & He1). cbv zeta in *.
    destruct (sync_one opts inst f w) as [[acts w1] [err|]] eqn:E1; cbn [fst snd] in *.
    + split; [exact Hs1|]. split; [cbn; lia|]. split; [exact Hl1|].
      split.
      { destruct He1 as [->|[ip ->]]; cbn; [constructor|].
        repeat constructor. exists ip. reflexivity. }
      split; [discriminate|].
      intros _ later. cbn [take app sync_all]. rewrite E1. reflexivity.
    + specialize (IH w1). cbv zeta in IH.
      destruct (sync_all opts inst fs w1) as [[[n acts'] w2] r] eqn:E2.
      cbn [fst snd] in *.
      destruct IH as (Hs2 & Hn & Hl2 & He2 & Hnone & Hsome).
      split; [apply Forall_app; split; assumption|].
      split; [cbn; lia|].
      split; [rewrite lookups_app, Hl1, Hl2; reflexivity|].
      split.
      { rewrite execs_app.
        destruct He1 as [Hnil|[ip Hone]].
        - exfalso. revert Hnil. clear -E1. unfold sync_one in E1.
          destruct (api_dropletGet (inst_id inst) w) as [[err|found] w'];
            [discriminate|].
          destruct (shell_exec _ w') as [[code out] w'']. inversion E1. discriminate.
        - rewrite Hone. cbn [app length take]. constructor; [|exact He2].
          exists ip. reflexivity. }
      split; [intros Hr; rewrite (Hnone Hr); reflexivity|].
      intros Hr later. cbn [take app sync_all]. rewrite E1.
      rewrite (Hsome Hr later). reflexivity.
Qed.
End ConfigureFacts.

(** C6.  For an instance whose request carries a folder array, the
    configuration pipeline first does what the in-order folder stage
    [sync_all] does and nothing else: only folder-sync actions, the rsync
    commands those of the folders in the order supplied.  If a sync fails,
    the folders after it are not touched, no script action occurs, and
    [finalCb] receives that first error; otherwise every folder has been
    synced when [runScripts] starts. *)
Theorem folders_complete_before_scripts {W : Type} `{Collab W}
    (opts : options) (req : request) (inst : instance) (fs : list folder) (w : W) :
  folders req = Some fs ->
  let n := fst (fst (fst (sync_all opts inst fs w))) in
  let acts := snd (fst (fst (sync_all opts inst fs w))) in
  let w' := snd (fst (sync_all opts inst fs w)) in
  let r := snd (sync_all opts inst fs w) in
  run (configure opts req inst record_final) w
    = match r with
      | Some err => (Returned tt, Machine w' (acts ++ [CalledErr "finalCb" err]))
      | None => runScripts opts req inst record_final (Machine w' acts)
      end
  /\ Forall (fun a => is_script_action a = false) acts
  /\ (n <= length fs)%nat
  /\ lookups acts = replicate n (inst_id inst)
  /\ Forall2 (is_sync_of opts) (execs acts) (take (length (execs acts)) fs)
  /\ (r = None -> n = length fs)
  /\ (r <> None -> forall later,
        sync_all opts inst (take n fs ++ later) w = sync_all opts inst fs w).
Proof.
  intros Hfs n acts w' r.
  split; [|apply sync_all_shape].
  unfold run, configure. rewrite Hfs.
  rewrite series_folders by reflexivity. cbn [world trace app].
  subst n acts w' r.
  destruct (sync_all opts inst fs w) as [[[n acts] w'] [err|]]; reflexivity.
Qed.

Lemma folders_complete_before_scripts_witness :
  let w := Scripted 5000 [0; 1] 0 (inr box) in
  run (configure quiet sample_request box record_final) w
    = (Returned tt,
       Machine (Scripted 5000 [] 0 (inr box))
               [DropletGet (Js.Num 7);
                Exec (rsync_cmd_for quiet (Folder "./app" "/srv/app") "10.0.0.7");
                DropletGet (Js.Num 7);
                Exec (rsync_cmd_for quiet (Folder "./conf" "/etc/app/") "10.0.0.7");
                CalledErr "finalCb"
                  (Js.Message ("Error running rsync: "
                     +:+ rsync_cmd_for quiet (Folder "./conf" "/etc/app/") "10.0.0.7"))]).
Proof.
  intros w.
  pose proof (folders_complete_before_scripts quiet sample_request box three_folders w
                eq_refl) as Hthm.
  cbv zeta in Hthm. destruct Hthm as [Hrun _].
  rewrite Hrun. reflexivity.
Defined.

(** ** DropletLifecycleController *)

Module LifecycleFacts.
Import Lifecycle.

Lemma error_eqb_eq (a b : Js.error) : Js.error_eqb a b = true <-> a = b.
Proof.
  destruct a as [x|x], b as [y|y]; cbn [Js.error_eqb];
    try (split; [discriminate | intros Heq; inversion Heq]);
    rewrite String.eqb_eq; split; intros Heq; [subst| inversion Heq | subst | inversion Heq];
    reflexivity.
Qed.

(** [cb] reports exactly the error it is given, and only when it has not
    been called before. *)
Lemma cb_reports (st : state) (r : Js.error + instance) :
  reports_timeout (snd (cb st r)) = true
  <-> r = inl timeout_error /\ called st = false.
Proof.
  unfold cb, reports_timeout. destruct (called st); cbn [snd existsb].
  - split; [discriminate | intros [_ ?]; discriminate].
  - destruct (interval st); destruct r as [e|i];
      cbn [snd existsb app is_final_error orb interval];
      rewrite ?orb_false_r, ?error_eqb_eq;
      (split; [intros Heq; first [discriminate | subst; split; reflexivity]
              | intros [Heq _]; first [discriminate | inversion Heq; reflexivity]]).
Qed.

(** The timeout is reported by a step exactly when the step handles a
    poll reply whose status is not done, with the budget reached and no
    outcome reported before. *)
Lemma step_reports (st st' : state) (clock_ms : Z) (ev : event) (effs : list effect) :
  step st clock_ms ev = Some (st', effs) ->
  (reports_timeout effs = true
   <-> budget_reached st clock_ms ev /\ called st = false).
Proof.
  unfold step, budget_reached. intros Hstep.
  destruct (crashed st); [discriminate|].
  destruct ev as [r| |r| |err|].
  - split; [|intros [(s & Hev & _) _]; discriminate].
    destruct (creating st); [|discriminate].
    destruct r; inversion Hstep; subst; cbn; discriminate.
  - split; [|intros [(s & Hev & _) _]; discriminate].
    destruct (interval st) as [[|]|]; try discriminate.
    destruct (created st); inversion Hstep; subst; cbn; discriminate.
  - destruct (polls st) as [|n]; [discriminate|].
    destruct (created st) as [d|]; [|discriminate].
    inversion Hstep as [Hreply]; clear Hstep.
    unfold on_event_reply in Hreply. cbn [start] in Hreply.
    destruct r as [err|status].
    + match type of Hreply with
      | context [cb ?s ?x] =>
          pose proof (cb_reports s x) as Hcb; destruct (cb s x) as [s1 e1]
      end.
      inversion Hreply; subst. cbn [snd] in Hcb.
      change (reports_timeout (ClearInterval :: e1)) with (reports_timeout e1).
      split; [intros Hrep; apply Hcb in Hrep as [Heq _]; discriminate
             | intros [(s & Hev & _) _]; discriminate].
    + destruct (String.eqb_spec status "done") as [->|Hnd].
      * inversion Hreply; subst. cbn.
        split; [discriminate|]. intros [(s & Hev & Hne & _) _].
        inversion Hev; subst. contradiction.
      * destruct (Z.leb_spec _getDropletLaunchTimeout (Js.unix clock_ms - start st))
          as [Hle|Hlt].
        -- match type of Hreply with
           | context [cb ?s ?x] =>
               pose proof (cb_reports s x) as Hcb; destruct (cb s x) as [s1 e1]
           end.
           inversion Hreply; subst. cbn [snd] in Hcb.
           change (reports_timeout (ClearInterval :: e1)) with (reports_timeout e1).
           cbn [called clear] in Hcb.
           split.
           ++ intros Hrep. apply Hcb in Hrep as [_ Hc].
              split; [|exact Hc]. exists status. auto.
           ++ intros [_ Hc]. apply Hcb. auto.
        -- inversion Hreply; subst. cbn.
           split; [discriminate|]. intros [(s & Hev & _ & Hle) _]. cbn in Hlt. lia.
  - split; [|intros [(s & Hev & _) _]; discriminate].
    destruct (port_waits st); inversion Hstep; subst; cbn; discriminate.
  - destruct (port_waits st) as [|n]; [discriminate|].
    inversion Hstep as [Hcb']; clear Hstep.
    match type of Hcb' with
    | cb ?s ?x = _ => pose proof (cb_reports s x) as Hcb; rewrite Hcb' in Hcb
    end.
    cbn [snd] in Hcb.
    split; [intros Hrep; apply Hcb in Hrep as [Heq _]; discriminate
           | intros [(s & Hev & _) _]; discriminate].
  - destruct (settles st) as [|n]; [discriminate|].
    destruct (created st) as [d|]; [|discriminate].
    inversion Hstep as [Hcb']; clear Hstep.
    match type of Hcb' with
    | cb ?s ?x = _ => pose proof (cb_reports s x) as Hcb; rewrite Hcb' in Hcb
    end.
    cbn [snd] in Hcb.
    split; [intros Hrep; apply Hcb in Hrep as [Heq _]; discriminate
           | intros [(s & Hev & _) _]; discriminate].
Qed.

Ltac lifecycle_cases :=
  unfold step, on_event_reply, cb, clear, polling_started, disarmed in *;
  cbn [start created interval called creating polls port_waits settles crashed
       fst snd] in *;
  repeat (case_match; simplify_eq/=);
  cbn [start created interval called creating polls port_waits settles crashed
       fst snd] in *;
  simplify_eq/=.

Lemma step_polling_started st clock_ms ev st' effs :
  polling_started st -> step st clock_ms ev = Some (st', effs) ->
  polling_started st'.
Proof.
  intros HJ Hstep. destruct st, ev; lifecycle_cases;
    destruct HJ as [HJ|[HJ1 HJ2]]; simplify_eq/=;
    first [ left; reflexivity
          | right; split; [reflexivity | first [discriminate | assumption]]
          | contradiction ].
Qed.

Lemma run_polling_started evs : forall st st' effs,
  polling_started st -> run st evs = Some (st', effs) -> polling_started st'.
Proof.
  induction evs as [|[c ev] evs IH]; intros st st' effs HJ Hrun; cbn [run] in Hrun.
  - inversion Hrun; subst. exact HJ.
  - destruct (step st c ev) as [[st1 e1]|] eqn:Hstep; [|discriminate].
    destruct (run st1 evs) as [[st2 e2]|] eqn:Hrest; [|discriminate].
    inversion Hrun; subst. eapply IH; [|exact Hrest].
    eapply step_polling_started; eassumption.
Qed.

Lemma step_disarmed st clock_ms ev st' effs :
  disarmed st -> step st clock_ms ev = Some (st', effs) ->
  disarmed st' /\ Forall (fun eff => is_event_get eff = false) effs.
Proof.
  intros HK Hstep. destruct st, ev; lifecycle_cases;
    destruct HK; simplify_eq/=; (split; [split; reflexivity | repeat constructor]).
Qed.

Lemma run_disarmed evs : forall st st' effs,
  disarmed st -> run st evs = Some (st', effs) -> disarmed st'.
Proof.
  induction evs as [|[c ev] evs IH]; intros st st' effs HK Hrun; cbn [run] in Hrun.
  - inversion Hrun; subst. exact HK.
  - destruct (step st c ev) as [[st1 e1]|] eqn:Hstep; [|discriminate].
    destruct (run st1 evs) as [[st2 e2]|] eqn:Hrest; [|discriminate].
    inversion Hrun; subst. eapply IH; [|exact Hrest].
    eapply step_disarmed; eassumption.
Qed.

(** Handling a reply that says done clears the interval. *)
Lemma step_done_disarms st clock_ms st' effs :
  polling_started st ->
  step st clock_ms (EventReplied (inr "done")) = Some (st', effs) ->
  disarmed st'.
Proof.
  intros HJ Hstep. destruct st; lifecycle_cases;
    destruct HJ as [HJ|[HJ1 HJ2]]; simplify_eq/=;
    first [ split; reflexivity | contradiction ].
Qed.

Lemma run_done_disarms evs : forall st st' effs,
  polling_started st -> run st evs = Some (st', effs) -> observed_done evs ->
  disarmed st'.
Proof.
  induction evs as [|[c ev] evs IH]; intros st st' effs HJ Hrun [c0 Hin].
  - destruct Hin.
  - cbn [run] in Hrun.
    destruct (step st c ev) as [[st1 e1]|] eqn:Hstep; [|discriminate].
    destruct (run st1 evs) as [[st2 e2]|] eqn:Hrest; [|discriminate].
    inversion Hrun; subst.
    destruct Hin as [Heq|Hin].
    + inversion Heq; subst.
      eapply run_disarmed; [|exact Hrest].
      eapply step_done_disarms; eassumption.
    + eapply IH; [| exact Hrest | exists c0; exact Hin].
      eapply step_polling_started; eassumption.
Qed.
End LifecycleFacts.

(** C2.  In a provisioning run, the creation-timeout error is reported
    only by a step that handles a poll reply whose status is not done,
    with at least 600 whole seconds elapsed since the request began and no
    outcome reported before; so port-wait and settle events never report
    it, however late they come.  As long as no reply saying done has been
    handled, every such poll reply does report it.  Once a reply saying
    done has been handled, no further poll is issued. *)
Theorem creation_timeout_rule (clock0 : Z) (evs : list (Z * Lifecycle.event))
    (st : Lifecycle.state) (effs0 : list Lifecycle.effect)
    (clock_ms : Z) (ev : Lifecycle.event)
    (st' : Lifecycle.state) (effs : list Lifecycle.effect) :
  Lifecycle.run (Lifecycle.init clock0) evs = Some (st, effs0) ->
  Lifecycle.step st clock_ms ev = Some (st', effs) ->
  (Lifecycle.reports_timeout effs = true ->
     Lifecycle.budget_reached st clock_ms ev /\ Lifecycle.called st = false
     /\ ev <> Lifecycle.PortOpened /\ ev <> Lifecycle.SettleFired
     /\ forall err, ev <> Lifecycle.PortFailed err)
  /\ (~ Lifecycle.observed_done evs ->
      Lifecycle.budget_reached st clock_ms ev -> Lifecycle.called st = false ->
      Lifecycle.reports_timeout effs = true)
  /\ (Lifecycle.observed_done evs ->
      Forall (fun eff => Lifecycle.is_event_get eff = false) effs).
Proof.
  intros Hrun Hstep.
  pose proof (LifecycleFacts.step_reports _ _ _ _ _ Hstep) as Hiff.
  split; [|split].
  - intros Hrep. apply Hiff in Hrep as [Hreached Hcalled].
    split; [exact Hreached|]. split; [exact Hcalled|].
    destruct Hreached as (status & -> & _).
    repeat split; discriminate.
  - intros _ Hreached Hcalled. apply Hiff. split; assumption.
  - intros Hdone.
    assert (HK : Lifecycle.disarmed st).
    { eapply LifecycleFacts.run_done_disarms; [|exact Hrun|exact Hdone].
      left. reflexivity. }
    eapply LifecycleFacts.step_disarmed; eassumption.
Qed.

Lemma creation_timeout_rule_witness :
  Lifecycle.reports_timeout
    [Lifecycle.ClearInterval; Lifecycle.ClearInterval;
     Lifecycle.FinalCb Lifecycle.timeout_error] = true.
Proof.
  pose proof (creation_timeout_rule 0
           [(2000, Lifecycle.CreateReplied (inr sample_droplet)); (608000, Lifecycle.Tick)]
           (Lifecycle.State 0 (Some sample_droplet) (Some true) false false 1 0 0 false)
           [Lifecycle.SetInterval 8000; Lifecycle.EventGet 431]
           608000 (Lifecycle.EventReplied (inr "active"))
           (Lifecycle.State 0 (Some sample_droplet) (Some false) true false 0 0 0 false)
           [Lifecycle.ClearInterval; Lifecycle.ClearInterval;
            Lifecycle.FinalCb Lifecycle.timeout_error]
           eq_refl eq_refl) as (_ & Hreport & _).
  apply Hreport.
  - intros [c Hin]. vm_compute in Hin.
    repeat (destruct Hin as [Hin|Hin]; [discriminate|]). exact Hin.
  - exists "active". split; [reflexivity|]. split; [discriminate|]. vm_compute. discriminate.
  - reflexivity.
Defined.

(** At the poll reply handled exactly 600 seconds after the request
    began, with the status not done, the timeout is reported although the
    elapsed time does not exceed 600 seconds.  And a reply to a poll that
    was in flight when done was observed still reports the timeout. *)
Lemma timeout_reported_at_600_seconds :
  let st := Lifecycle.State 0 (Some sample_droplet) (Some true) false false 1 0 0 false in
  let ev := Lifecycle.EventReplied (inr "active") in
  Lifecycle.run (Lifecycle.init 0)
    [(2000, Lifecycle.CreateReplied (inr sample_droplet)); (600000, Lifecycle.Tick)]
    = Some (st, [Lifecycle.SetInterval 8000; Lifecycle.EventGet 431])
  /\ ~ (forall st' effs,
          Lifecycle.step st 600000 ev = Some (st', effs) ->
          (Lifecycle.reports_timeout effs = true
           <-> Lifecycle.budget_exceeded st 600000 ev))
  /\ (exists st2 effs2,
        Lifecycle.run (Lifecycle.init 0)
          [(2000, Lifecycle.CreateReplied (inr sample_droplet));
           (584000, Lifecycle.Tick); (592000, Lifecycle.Tick);
           (596000, Lifecycle.EventReplied (inr "done"));
           (601000, Lifecycle.EventReplied (inr "active"))] = Some (st2, effs2)
        /\ Lifecycle.reports_timeout effs2 = true).
Proof.
  split; [vm_compute; reflexivity|]. split.
  - intros Hclaim.
    assert (Hstep : Lifecycle.step
              (Lifecycle.State 0 (Some sample_droplet) (Some true) false false 1 0 0 false)
              600000 (Lifecycle.EventReplied (inr "active"))
            = Some (Lifecycle.State 0 (Some sample_droplet) (Some false) true false 0 0 0 false,
                    [Lifecycle.ClearInterval; Lifecycle.ClearInterval;
                     Lifecycle.FinalCb Lifecycle.timeout_error]))
      by (vm_compute; reflexivity).
    specialize (Hclaim _ _ Hstep).
    destruct Hclaim as [Hto _].
    assert (Hrep : Lifecycle.reports_timeout
                     [Lifecycle.ClearInterval; Lifecycle.ClearInterval;
                      Lifecycle.FinalCb Lifecycle.timeout_error] = true)
      by (vm_compute; reflexivity).
    destruct (Hto Hrep) as (status & _ & _ & Hlt).
    vm_compute in Hlt. discriminate.
  - exists (Lifecycle.State 0 (Some sample_droplet) (Some false) true false 0 1 0 false),
           [Lifecycle.SetInterval 8000; Lifecycle.EventGet 431; Lifecycle.EventGet 431;
            Lifecycle.ClearInterval;
            Lifecycle.WaitUntilUsedOnHost 22 "10.0.0.7" 1000 240000;
            Lifecycle.ClearInterval; Lifecycle.ClearInterval;
            Lifecycle.FinalCb Lifecycle.timeout_error].
    split; vm_compute; reflexivity.
Qed.

(** C4.  An error from the create call is thrown out of the create
    callback: the run has crashed, nothing can follow, and [finalCb] is
    never invoked. *)
Theorem create_error_is_thrown (req : request) (clock0 clock1 : Z) (err : string) :
  exists st1,
    Lifecycle.step (fst (Lifecycle._provision req clock0)) clock1
                   (Lifecycle.CreateReplied (inl err))
      = Some (st1, [Lifecycle.Throw (Js.Provider err)])
    /\ Lifecycle.crashed st1 = true
    /\ (forall evs st2 effs,
          Lifecycle.run st1 evs = Some (st2, effs) -> evs = [] /\ effs = []).
Proof.
  eexists. split; [reflexivity|]. split; [reflexivity|].
  intros [|[c ev] evs] st2 effs Hrun.
  - inversion Hrun. split; reflexivity.
  - cbn in Hrun. discriminate.
Qed.

(** ** [async.parallel] and [provision] *)

Module AsyncFacts.
Import Async.
Section Facts.
Context {A : Type}.
Implicit Types (arr : list (option A)) (sched : list (nat * (Js.error + A))).

Lemma array_set_length i v arr :
  length (array_set i v arr) = Nat.max (length arr) (S i).
Proof.
  unfold array_set. destruct (Nat.ltb_spec i (length arr)).
  - rewrite length_insert. lia.
  - rewrite !length_app, length_replicate. cbn [length]. lia.
Qed.

Lemma array_get_set_eq i v arr : array_get (array_set i v arr) i = v.
Proof.
  unfold array_get, array_set. destruct (Nat.ltb_spec i (length arr)).
  - rewrite list_lookup_insert_eq by assumption. reflexivity.
  - rewrite lookup_app_r by lia.
    rewrite lookup_app_r by (rewrite length_replicate; lia).
    rewrite length_replicate.
    replace (i - length arr - (i - length arr))%nat with 0%nat by lia.
    reflexivity.
Qed.

Lemma array_get_set_ne i j v arr :
  i <> j -> array_get (array_set i v arr) j = array_get arr j.
Proof.
  intros Hne. unfold array_get, array_set.
  destruct (Nat.ltb_spec i (length arr)).
  - rewrite list_lookup_insert_ne by assumption. reflexivity.
  - destruct (Nat.lt_ge_cases j (length arr)).
    + rewrite lookup_app_l by assumption. reflexivity.
    + rewrite (lookup_ge_None_2 arr j) by assumption.
      rewrite lookup_app_r by assumption.
      destruct (Nat.lt_ge_cases (j - length arr) (i - length arr)).
      * rewrite lookup_app_l by (rewrite length_replicate; assumption).
        rewrite lookup_replicate_2 by assumption. reflexivity.
      * rewrite lookup_app_r by (rewrite length_replicate; assumption).
        rewrite length_replicate.
        destruct (j - length arr - (i - length arr))%nat as [|k] eqn:Hk; [lia|].
        reflexivity.
Qed.

Lemma schedule_cons (outcomes : list (Js.error + A)) (i : nat) (order : list nat) :
  schedule outcomes (i :: order) =
    match outcomes !! i with
    | Some r => (i, r) :: schedule outcomes order
    | None => schedule outcomes order
    end.
Proof. unfold schedule. cbn [omap list_omap]. destruct (outcomes !! i); reflexivity. Qed.

Lemma writes_cons arr x sched :
  writes arr (x :: sched) = writes (array_set (fst x) (stored (snd x)) arr) sched.
Proof. reflexivity. Qed.

(** The array after a schedule of writes only depends on who wrote. *)
Lemma writes_get (outcomes : list (Js.error + A)) (order : list nat) :
  forall arr j,
    array_get (writes arr (schedule outcomes order)) j =
      if bool_decide (j ∈ order /\ j < length outcomes)%nat
      then match outcomes !! j with Some r => stored r | None => None end
      else array_get arr j.
Proof.
  induction order as [|i order IH]; intros arr j.
  - cbn. rewrite bool_decide_eq_false_2; [reflexivity|].
    intros [Hin _]. inversion Hin.
  - rewrite schedule_cons.
    destruct (outcomes !! i) as [r|] eqn:Hi.
    + rewrite writes_cons, IH. cbn [fst snd].
      apply lookup_lt_Some in Hi as Hlt.
      destruct (decide (j ∈ order /\ j < length outcomes)%nat) as [Hd|Hd].
      * rewrite !bool_decide_eq_true_2; [reflexivity| |assumption].
        destruct Hd. split; [right|]; assumption.
      * rewrite (bool_decide_eq_false_2 _ Hd).
        destruct (decide (i = j)) as [->|Hne].
        -- rewrite bool_decide_eq_true_2 by (split; [left|assumption]).
           rewrite Hi. apply array_get_set_eq.
        -- rewrite bool_decide_eq_false_2.
           ++ apply array_get_set_ne. assumption.
           ++ intros [Hin Hlt']. apply Hd. split; [|assumption].
              inversion Hin; subst; [contradiction|assumption].
    + rewrite IH.
      apply lookup_ge_None in Hi.
      destruct (decide (j ∈ order /\ j < length outcomes)%nat) as [Hd|Hd].
      * rewrite !bool_decide_eq_true_2; [reflexivity| |assumption].
        destruct Hd. split; [right|]; assumption.
      * rewrite (bool_decide_eq_false_2 _ Hd).
        rewrite bool_decide_eq_false_2; [reflexivity|].
        intros [Hin Hlt']. apply Hd. split; [|assumption].
        inversion Hin; subst; [lia|assumption].
Qed.

Lemma writes_length_le (n : nat) sched :
  forall arr, (length arr <= n)%nat ->
    Forall (fun x => fst x < n)%nat sched ->
    (length (writes arr sched) <= n)%nat.
Proof.
  induction sched as [|[i r] sched IH]; intros arr Hlen Hall; [exact Hlen|].
  inversion Hall; subst. cbn [writes foldl fst snd].
  apply IH; [|assumption]. rewrite array_set_length. cbn [fst] in *. lia.
Qed.

Lemma writes_app arr (s1 s2 : list (nat * (Js.error + A))) : writes arr (s1 ++ s2) = writes (writes arr s1) s2.
Proof. apply foldl_app. Qed.

(** The results array is what the writes of the schedule leave. *)
Lemma completions_results (n : nat) sched : forall st,
  results (fst (completions n st sched)) = writes (results st) sched.
Proof.
  induction sched as [|[i r] sched IH]; intros st; [reflexivity|].
  cbn [completions]. destruct (complete n st i r) as [st1 f1] eqn:Hc.
  specialize (IH st1). destruct (completions n st1 sched) as [st2 f2].
  cbn [fst] in *. rewrite IH. cbn [writes foldl fst snd]. f_equal.
  unfold complete in Hc. destruct r as [e|a]; cbn [stored].
  - destruct (live st); inversion Hc; reflexivity.
  - destruct (live st && (n <=? S (completed st))%nat); inversion Hc; reflexivity.
Qed.

(** After an error has gone to the final callback, nothing more does. *)
Lemma completions_dead (n : nat) sched : forall st,
  live st = false -> snd (completions n st sched) = [].
Proof.
  induction sched as [|[i r] sched IH]; intros st Hdead; [reflexivity|].
  cbn [completions]. destruct (complete n st i r) as [st1 f1] eqn:Hc.
  specialize (IH st1). destruct (completions n st1 sched) as [st2 f2].
  cbn [snd] in *. unfold complete in Hc. rewrite Hdead in Hc.
  destruct r; cbn [andb] in Hc; inversion Hc; subst; cbn [app];
    apply IH; reflexivity.
Qed.

(** Successes short of [n] call nothing; the one that makes [n] hands
    over the array. *)
Lemma completions_successes (n : nat) sched : forall st,
  live st = true -> Forall succeeded sched ->
  (completed st + length sched <= n)%nat ->
  live (fst (completions n st sched)) = true
  /\ completed (fst (completions n st sched)) = (completed st + length sched)%nat
  /\ snd (completions n st sched)
     = if ((completed st + length sched =? n)%nat && negb (length sched =? 0)%nat)
       then [Final None (writes (results st) sched)] else [].
Proof.
  induction sched as [|[i r] sched IH]; intros st Hlive Hall Hle.
  - cbn [completions fst snd length]. rewrite Nat.add_0_r, andb_false_r.
    repeat split. assumption.
  - inversion Hall as [|x l Hx Hrest]; subst.
    destruct r as [e|a]; [destruct Hx|]. cbn [length] in Hle.
    pose proof (completions_results n sched) as Hres.
    cbn [completions complete]. rewrite Hlive. cbn [andb].
    destruct (Nat.leb_spec n (S (completed st))) as [Hdone|Hmore].
    + assert (sched = []) as -> by (destruct sched; [reflexivity|cbn in Hle; lia]).
      cbn [completions fst snd length app].
      replace (completed st + 1 =? n)%nat with true
        by (symmetry; apply Nat.eqb_eq; lia).
      cbn. repeat split; first [assumption | lia].
    + specialize (IH (PState (array_set i (Some a) (results st)) (S (completed st)) true)
                     eq_refl Hrest).
      specialize (Hres (PState (array_set i (Some a) (results st)) (S (completed st)) true)).
      destruct (completions n _ sched) as [st2 f2]. cbn [fst snd completed results] in *.
      destruct IH as (Hl & Hc & Hf); [lia|].
      cbn [app length]. split; [assumption|]. split; [lia|].
      rewrite Hf.
      replace (S (completed st) + length sched)%nat
        with (completed st + S (length sched))%nat by lia.
      cbn [Nat.eqb negb]. rewrite andb_true_r.
      destruct (completed st + S (length sched) =? n)%nat eqn:Hn; cbn [andb negb];
        [|reflexivity].
      destruct (length sched =? 0)%nat eqn:Hz; cbn [negb].
      * apply Nat.eqb_eq in Hn, Hz. lia.
      * reflexivity.
Qed.

Lemma first_error_none sched :
  first_error sched = None -> Forall succeeded sched.
Proof.
  induction sched as [|[i [e|a]] sched IH]; cbn [first_error]; intros Hf.
  - constructor.
  - discriminate.
  - constructor; [exact I | apply IH; assumption].
Qed.

Lemma first_error_some sched e :
  first_error sched = Some e ->
  exists pre i post,
    sched = pre ++ (i, inl e) :: post /\ Forall succeeded pre.
Proof.
  induction sched as [|[i [e'|a]] sched IH]; cbn [first_error]; intros Hf.
  - discriminate.
  - inversion Hf; subst. exists [], i, sched. split; [reflexivity|constructor].
  - destruct (IH Hf) as (pre & j & post & -> & Hpre).
    exists ((i, inr a) :: pre), j, post. split; [reflexivity|].
    constructor; [exact I | assumption].
Qed.

Lemma completions_app (n : nat) (s1 s2 : list (nat * (Js.error + A))) (st : pstate) :
  completions n st (s1 ++ s2) =
    (fst (completions n (fst (completions n st s1)) s2),
     snd (completions n st s1) ++ snd (completions n (fst (completions n st s1)) s2)).
Proof.
  revert st. induction s1 as [|[i r] s1 IH]; intros st.
  - cbn [app completions fst snd]. destruct (completions n st s2); reflexivity.
  - cbn [app completions]. destruct (complete n st i r) as [st1 f1].
    rewrite IH. destruct (completions n st1 s1) as [st2 f2]. cbn [fst snd].
    destruct (completions n st2 s2) as [st3 f3]. cbn [fst snd].
    rewrite app_assoc. reflexivity.
Qed.

(** First error wins: it goes to the final callback once, whatever
    comes after. *)
Lemma completions_first_error (n : nat) sched e :
  first_error sched = Some e -> (length sched <= n)%nat ->
  exists partial,
    snd (completions n (PState [] 0 true) sched) = [Final (Some e) partial]
    /\ exists pre i, partial = writes [] (pre ++ [(i, inl e)])
                     /\ (pre ++ [(i, inl e)]) `prefix_of` sched.
Proof.
  intros Hf Hlen.
  destruct (first_error_some _ _ Hf) as (pre & i & post & -> & Hpre).
  rewrite length_app in Hlen. cbn [length] in Hlen.
  rewrite completions_app.
  destruct (completions_successes n pre (PState [] 0 true) eq_refl Hpre)
    as (Hl & Hc & Hfin); [cbn; lia|].
  pose proof (completions_results n pre (PState [] 0 true)) as Hres.
  destruct (completions n (PState [] 0 true) pre) as [st1 f1].
  cbn [fst snd completed results] in *.
  replace (0 + length pre =? n)%nat with false in Hfin
    by (symmetry; apply Nat.eqb_neq; lia).
  cbn [andb] in Hfin. subst f1. cbn [app completions complete].
  rewrite Hl.
  pose proof (completions_dead n post
                (PState (array_set i None (results st1)) (completed st1) false) eq_refl)
    as Hdead.
  destruct (completions n _ post) as [st2 f2]. cbn [fst snd] in *. subst f2.
  eexists. split; [reflexivity|].
  exists pre, i. split.
  - rewrite writes_app, Hres. reflexivity.
  - exists post. rewrite <- app_assoc. reflexivity.
Qed.
End Facts.
End AsyncFacts.

Section ProvisionFacts.
Import Async AsyncFacts.

Lemma schedule_spec {A} (outcomes : list (Js.error + A)) (order : list nat) x :
  x ∈ schedule outcomes order <-> fst x ∈ order /\ outcomes !! fst x = Some (snd x).
Proof.
  unfold schedule. rewrite list_elem_of_omap. split.
  - intros (i & Hin & Hx). destruct (outcomes !! i) as [r|] eqn:Hi; [|discriminate].
    inversion Hx; subst. cbn [fst snd]. split; assumption.
  - intros [Hin Hx]. exists (fst x). split; [assumption|].
    rewrite Hx. destruct x; reflexivity.
Qed.

Lemma schedule_length {A} (outcomes : list (Js.error + A)) (order : list nat) :
  (forall i, i ∈ order -> i < length outcomes)%nat ->
  length (schedule outcomes order) = length order.
Proof.
  induction order as [|i order IH]; intros Hall; [reflexivity|].
  rewrite schedule_cons.
  destruct (outcomes !! i) as [r|] eqn:Hi.
  - cbn [length]. rewrite IH; [reflexivity|].
    intros j Hj. apply Hall. right. assumption.
  - apply lookup_ge_None in Hi. specialize (Hall i (list_elem_of_here _ _)). lia.
Qed.

Lemma ready_of_all (outcomes : list (Js.error + instance)) :
  Forall (fun r => exists i, r = inr i) outcomes ->
  outcomes = map inr (ready_of outcomes)
  /\ length (ready_of outcomes) = length outcomes.
Proof.
  induction 1 as [|r l [i ->] _ [IH1 IH2]]; [split; reflexivity|].
  unfold ready_of in *. cbn [omap list_omap map length].
  split; [f_equal; exact IH1 | f_equal; exact IH2].
Qed.

(** With every task succeeding, once each, the array holds every
    task's value at the task's own index, whatever the order. *)
Lemma writes_in_input_order (ready : list instance) (order : list nat) :
  order ≡ₚ seq 0 (length ready) ->
  writes [] (schedule (map inr ready) order) = map Some ready.
Proof.
  intros Hperm.
  set (outcomes := map (@inr Js.error instance) ready).
  assert (Hlen : length outcomes = length ready) by apply length_map.
  assert (Hin : forall j, j ∈ order <-> (j < length ready)%nat).
  { intros j. rewrite Hperm, elem_of_seq. lia. }
  assert (Hget : forall j, (j < length ready)%nat ->
            array_get (writes [] (schedule outcomes order)) j = ready !! j).
  { intros j Hj. rewrite writes_get.
    rewrite bool_decide_eq_true_2 by (split; [apply Hin|]; lia).
    subst outcomes. rewrite list_lookup_fmap.
    destruct (ready !! j); reflexivity. }
  assert (Hle : (length (writes [] (schedule outcomes order)) <= length ready)%nat).
  { apply writes_length_le; [cbn; lia|].
    apply Forall_forall. intros x Hx. apply schedule_spec in Hx as [Hx _].
    apply Hin. assumption. }
  assert (Hge : (length ready <= length (writes [] (schedule outcomes order)))%nat).
  { destruct (length ready) as [|k] eqn:Hk; [lia|].
    specialize (Hget k (Nat.lt_succ_diag_r k)).
    destruct (lookup_lt_is_Some_2 ready k) as [inst Hinst]; [lia|].
    rewrite Hinst in Hget. unfold array_get in Hget.
    destruct (writes [] (schedule outcomes order) !! k) eqn:Hw;
      [|discriminate].
    apply lookup_lt_Some in Hw. lia. }
  apply list_eq. intros j. rewrite list_lookup_fmap.
  destruct (Nat.lt_ge_cases j (length ready)) as [Hj|Hj].
  - specialize (Hget j Hj). unfold array_get in Hget.
    destruct (writes [] (schedule outcomes order) !! j) as [x|] eqn:Hw.
    + cbn in Hget. subst x.
      destruct (lookup_lt_is_Some_2 ready j Hj) as [inst ->]. reflexivity.
    + apply lookup_ge_None in Hw. lia.
  - rewrite (lookup_ge_None_2 ready j) by assumption.
    apply lookup_ge_None_2. lia.
Qed.

(** An instance found in the array was written by a task that reported
    it. *)
Lemma writes_origin {A} (sched : list (nat * (Js.error + A))) :
  forall arr j (a : A),
    writes arr sched !! j = Some (Some a) ->
    arr !! j = Some (Some a) \/ (j, inr a) ∈ sched.
Proof.
  induction sched as [|[i r] sched IH]; intros arr j a Hw; [left; exact Hw|].
  rewrite writes_cons in Hw. cbn [fst snd] in Hw.
  destruct (IH _ _ _ Hw) as [Hset|Hin]; [|right; right; exact Hin].
  destruct (decide (i = j)) as [->|Hne].
  - pose proof (array_get_set_eq j (stored r) arr) as Hg.
    unfold array_get in Hg. rewrite Hset in Hg. cbn in Hg.
    destruct r as [e|a']; cbn [stored] in Hg; [discriminate|].
    inversion Hg; subst. right. left.
  - pose proof (array_get_set_ne i j (stored r) arr Hne) as Hg.
    unfold array_get in Hg. rewrite Hset in Hg. cbn in Hg.
    destruct (arr !! j) as [x|]; cbn in Hg; [|discriminate].
    subst x. left. reflexivity.
Qed.
End ProvisionFacts.

(** C5.  For a batch of N requests whose pipelines each report once,
    in any order: if every pipeline reports a ready instance, [final_cb]
    is invoked exactly once, without error, with exactly N instances in
    the order of the requests; if some pipeline reports an error,
    [final_cb] is invoked exactly once with the first error reported and
    the array as it is then, which has at most N entries and holds
    instances only at the indices of requests that reported them. *)
Theorem provision_first_error_or_all (options : request + list request)
    (outcomes : list (Js.error + instance)) (order : list nat) :
  let instances := match options with inl o => [o] | inr l => l end in
  length outcomes = length instances ->
  order ≡ₚ seq 0 (length instances) ->
  match Async.first_error (Async.schedule outcomes order) with
  | None =>
      outcomes = map inr (ready_of outcomes)
      /\ length (ready_of outcomes) = length instances
      /\ provision options outcomes order
         = [Async.Final None (map Some (ready_of outcomes))]
  | Some e =>
      exists partial,
        provision options outcomes order = [Async.Final (Some e) partial]
        /\ (length partial <= length instances)%nat
        /\ forall i inst,
             partial !! i = Some (Some inst) -> outcomes !! i = Some (inr inst)
  end.
Proof.
  intros instances Hlen Hperm.
  assert (Hin : forall j, j ∈ order <-> (j < length outcomes)%nat).
  { intros j. rewrite Hperm, elem_of_seq. lia. }
  assert (Hsl : length (Async.schedule outcomes order) = length instances).
  { rewrite schedule_length by (intros i Hi; apply Hin; assumption).
    rewrite Hperm, length_seq. reflexivity. }
  unfold provision. fold instances. unfold Async.parallel, Async.start.
  destruct (Async.first_error (Async.schedule outcomes order)) as [e|] eqn:Hfe.
  - destruct (AsyncFacts.completions_first_error (length instances) _ e Hfe)
      as (partial & Hfin & pre & i & -> & Hpre); [lia|].
    assert (Hn : (length instances =? 0)%nat = false).
    { apply Nat.eqb_neq. destruct (AsyncFacts.first_error_some _ _ Hfe)
        as (p & k & q & Hs & _). rewrite Hs, length_app in Hsl. cbn in Hsl. lia. }
    rewrite Hn.
    destruct (Async.completions _ _ _) as [st1 f1]. cbn [snd app] in *. subst f1.
    eexists. split; [reflexivity|].
    assert (Hsub : forall x, x ∈ pre ++ [(i, inl e)] -> x ∈ Async.schedule outcomes order).
    { intros x Hx. destruct Hpre as [post Hpost].
      rewrite Hpost. apply elem_of_app. left. assumption. }
    split.
    + apply AsyncFacts.writes_length_le; [cbn; lia|].
      apply Forall_forall. intros x Hx. apply Hsub in Hx.
      apply schedule_spec in Hx as [Hx _]. apply Hin in Hx. lia.
    + intros j inst Hj. apply writes_origin in Hj as [Hj|Hj]; [inversion Hj|].
      apply Hsub in Hj. apply schedule_spec in Hj as [_ Hj]. exact Hj.
  - apply AsyncFacts.first_error_none in Hfe as Hall.
    assert (Hready : Forall (fun r => exists i, r = inr i) outcomes).
    { apply Forall_forall. intros r Hr.
      apply list_elem_of_lookup in Hr as [j Hj].
      assert (Hs : (j, r) ∈ Async.schedule outcomes order).
      { apply schedule_spec. cbn [fst snd]. split; [|assumption].
        apply Hin. apply lookup_lt_Some in Hj. assumption. }
      rewrite Forall_forall in Hall. specialize (Hall _ Hs).
      unfold Async.succeeded in Hall. cbn [snd] in Hall.
      destruct r as [e|i]; [destruct Hall|]. exists i. reflexivity. }
    destruct (ready_of_all outcomes Hready) as [Hout Hrl].
    split; [exact Hout|]. split; [lia|].
    destruct (length instances) as [|n] eqn:Hn.
    + cbn [Nat.eqb]. destruct (Async.schedule outcomes order); [|discriminate].
      cbn [Async.completions snd app].
      destruct outcomes; [reflexivity|discriminate].
    + cbn [Nat.eqb].
      destruct (AsyncFacts.completions_successes (S n) _ (Async.PState [] 0 true)
                  eq_refl Hall) as (_ & _ & Hfin); [cbn; lia|].
      destruct (Async.completions _ _ _) as [st1 f1]. cbn [fst snd app] in *.
      rewrite Hfin. cbn [Async.completed Async.results]. rewrite Hsl.
      rewrite Nat.eqb_refl. cbn [Nat.eqb negb andb].
      f_equal. f_equal. rewrite Hout at 1.
      apply writes_in_input_order. rewrite Hrl, Hlen. exact Hperm.
Qed.

Lemma provision_first_error_or_all_witness :
  provision (inr two_requests) [inr box; inr box2] [1%nat; 0%nat]
    = [Async.Final None [Some box; Some box2]].
Proof.
  pose proof (provision_first_error_or_all (inr two_requests)
                [inr box; inr box2] [1%nat; 0%nat]) as Hthm.
  cbv zeta in Hthm.
  specialize (Hthm eq_refl (perm_swap 0%nat 1%nat [])).
  cbn in Hthm. destruct Hthm as (_ & _ & Hrun). exact Hrun.
Defined.

(** With two requests of which the first reports an error before the
    second reports its instance, [final_cb] receives the error and a
    one-element array holding [undefined]: not two outcomes.  The array
    ends as [[undefined; instance]]: the failure is never an entry. *)
Lemma provision_error_hides_outcomes :
  let outcomes := [inl (Js.Provider "quota"); inr box2] in
  provision (inr two_requests) outcomes [0%nat; 1%nat]
    = [Async.Final (Some (Js.Provider "quota")) [None]]
  /\ Async.results
       (fst (Async.parallel 2 (Async.schedule outcomes [0%nat; 1%nat])))
     = [None; Some box2]
  /\ ~ (exists f,
          provision (inr two_requests) outcomes [0%nat; 1%nat] = [f]
          /\ length (Async.final_results f) = length two_requests).
Proof.
  split; [reflexivity|]. split; [reflexivity|].
  intros (f & Hf & Hlen). inversion Hf; subst. discriminate.
Qed.

(** ** FleetReconciler *)

Module ReconcileFacts.
Import Reconcile.

Lemma destroyed_issue (ids : list (option Z)) (rest : list effect) :
  (forall e, In e rest -> match e with Destroy _ => False | _ => True end) ->
  destroyed (map Destroy ids ++ rest) = ids.
Proof.
  intros Hrest. unfold destroyed. rewrite omap_app.
  assert (omap (fun e => match e with Destroy id => Some id | _ => None end) rest = [])
    as ->.
  { induction rest as [|e rest IH]; [reflexivity|].
    cbn [omap list_omap]. pose proof (Hrest e (or_introl eq_refl)) as He.
    destruct e; try destruct He; apply IH; intros e' He'; apply Hrest; right; exact He'. }
  rewrite app_nil_r. induction ids as [|i ids IH]; [reflexivity|].
  cbn [map omap list_omap]. f_equal. exact IH.
Qed.

(** The destroy calls issued are those for the listed instances whose
    normalised identifier is not found in the normalised keep-list, in
    listing order. *)
Lemma destroys_exactly_unlisted (ids : Js.ident + list Js.ident)
    (droplets : list instance) (outcomes : list (Js.error + string))
    (order : list nat) :
  destroyed (dropletDestroyExcept ids (inr droplets) outcomes order)
    = bad_ids (normalize ids) droplets
  /\ forall id,
       In id (bad_ids (normalize ids) droplets)
       <-> In id (map (fun d => Js.parseInt (inst_id d)) droplets)
           /\ Js.index_found (normalize ids) id = false.
Proof.
  split.
  - unfold dropletDestroyExcept. cbn [destroyed omap list_omap].
    apply destroyed_issue. intros e He. apply in_map_iff in He as (f & <- & _).
    unfold deliver. destruct (Async.final_err f); exact I.
  - intros id. unfold bad_ids. rewrite filter_In, negb_true_iff. reflexivity.
Qed.

(** With every listed identifier kept, nothing is destroyed. *)
Lemma keep_all_destroys_nothing (ids : Js.ident + list Js.ident)
    (droplets : list instance) :
  (forall d, In d droplets ->
     Js.index_found (normalize ids) (Js.parseInt (inst_id d)) = true) ->
  bad_ids (normalize ids) droplets = [].
Proof.
  intros Hkept. unfold bad_ids.
  induction droplets as [|d droplets IH]; [reflexivity|].
  cbn [map List.filter]. rewrite (Hkept d (or_introl eq_refl)). cbn [negb].
  apply IH. intros d' Hd'. apply Hkept. right. exact Hd'.
Qed.
End ReconcileFacts.

(** C8.  With instances 1, 2, 3, 4 listed and 2 and 4 kept, destroys are
    issued for exactly 1 and 3; when both succeed the callback is invoked
    as [cb(result)]: the array of the destroy calls' results sits in the
    first, error, position and no success value is passed. *)
Theorem destroy_results_in_error_position :
  let effs := Reconcile.dropletDestroyExcept
                (inr [Js.Num 2; Js.Str "4"]) (inr fleet)
                [inr "event-11"; inr "event-13"] [1%nat; 0%nat] in
  effs = [Reconcile.ListAll;
          Reconcile.Destroy (Some 1); Reconcile.Destroy (Some 3);
          Reconcile.Cb [Reconcile.ArgArray [Some "event-11"; Some "event-13"]]]
  /\ Reconcile.destroyed effs = [Some 1; Some 3]
  /\ Forall (fun args => Reconcile.is_success_call args = false) (Reconcile.calls effs).
Proof. repeat split. repeat constructor. Qed.

(** * Further properties *)

(** ** Construction *)

(** X1.  [init] accepts a configuration exactly when each of the six
    required settings is truthy. *)
Theorem init_accepts_iff_required_present (o : Config.settings) :
  (exists o', Config.init o = inr o')
  <-> Forall (fun x => Config.truthy x = true) (Config.required o).
Proof.
  unfold Config.init, Config.required. split.
  - intros [o' Hinit].
    repeat match type of Hinit with
           | (if negb ?b then _ else _) = _ =>
               destruct b eqn:?; cbn [negb] in Hinit; [|discriminate]
           end.
    repeat constructor; assumption.
  - intros Hall.
    repeat match goal with
           | H : Forall _ (_ :: _) |- _ =>
               apply Forall_cons_1 in H; destruct H as [-> H]
           end.
    cbn [negb]. eexists. reflexivity.
Qed.



(** ** [listDroplets] *)

(** X3.  A field as shown in the table is never a boolean and never
    falsy; a truthy field that is not a boolean is shown unchanged, and
    showing twice changes nothing more. *)
Theorem shown_cell_is_text_or_unchanged (v : Table.cell) :
  Table.is_boolean (Table.shown v) = false
  /\ Table.falsy (Table.shown v) = false
  /\ Table.shown (Table.shown v) = Table.shown v
  /\ (Table.falsy v = false -> Table.is_boolean v = false -> Table.shown v = v).
Proof.
  destruct v as [| |[|]|z| |s]; cbn; try (repeat split; intros; congruence).
  - destruct (z =? 0) eqn:Hz; cbn; rewrite ?Hz; cbn; repeat split; intros; congruence.
  - destruct s as [|c s]; cbn; repeat split; intros; congruence.
Qed.

Lemma shown_cell_is_text_or_unchanged_witness :
  Table.shown (Table.CStr "active") = Table.CStr "active".
Proof.
  apply (shown_cell_is_text_or_unchanged (Table.CStr "active")); reflexivity.
Defined.

(** ** [getDropletByName] *)

Lemma findWhere_name_spec (droplets : list instance) (name : string) :
  match findWhere_name droplets name with
  | Some d =>
      exists before after,
        droplets = before ++ d :: after /\ inst_name d = name
        /\ Forall (fun x => inst_name x <> name) before
  | None => Forall (fun x => inst_name x <> name) droplets
  end.
Proof.
  unfold findWhere_name. induction droplets as [|x l IH]; cbn [List.find].
  - constructor.
  - destruct (String.eqb_spec (inst_name x) name) as [Heq|Hne].
    + exists [], l. repeat split; [exact Heq | constructor].
    + destruct (List.find _ l) as [d|].
      * destruct IH as (before & after & -> & Hd & Hb).
        exists (x :: before), after. repeat split; [exact Hd|].
        constructor; assumption.
      * constructor; assumption.
Qed.

(** X4.  [getDropletByName] calls back exactly once.  A listing error
    is passed on; otherwise the call succeeds with the first listed
    droplet of that name, and succeeds with no value at all, not with an
    error, when no listed droplet has the name. *)
Theorem getDropletByName_first_match {W : Type} `{Collab W} (name : string) (w : W) :
  let result := run (getDropletByName name record_found) w in
  fst result = Returned tt
  /\ match fst (api_dropletGetAll w) with
     | inl err =>
         trace (snd result) = [DropletGetAll; CalledErr "cb" err]
     | inr droplets =>
         match findWhere_name droplets name with
         | Some d =>
             trace (snd result)
               = [DropletGetAll; CalledOk "cb" [Js.to_string (inst_id d); inst_name d]]
             /\ exists before after,
                  droplets = before ++ d :: after /\ inst_name d = name
                  /\ Forall (fun x => inst_name x <> name) before
         | None =>
             trace (snd result) = [DropletGetAll; CalledOk "cb" []]
             /\ Forall (fun x => inst_name x <> name) droplets
         end
     end.
Proof.
  intros result. subst result. unfold run, getDropletByName.
  rewrite bind_emit, bind_ask. cbn [world trace app].
  destruct (api_dropletGetAll w) as [[err|droplets] w1]; cbn [fst snd].
  - split; reflexivity.
  - pose proof (findWhere_name_spec droplets name) as Hspec.
    destruct (findWhere_name droplets name) as [d|]; cbn [record_found];
      (split; [reflexivity|]); (split; [reflexivity | exact Hspec]).
Qed.

(** ** [runInstanceCommand] *)

(** X5.  [runInstanceCommand] calls back exactly once and runs at most
    one command.  A lookup error, or a lookup that finds no instance, is
    reported without any command being run; otherwise the one ssh command
    is run once: exit code 0 hands over its output, any other exit code is
    reported as the error 'ssh returned with error code: N'. *)
Theorem runInstanceCommand_reports_once {W : Type} `{Collab W} `{Lookup W}
    (opts : options) (instance_id : Js.ident) (cmd : string) (w : W) :
  let result := run (runInstanceCommand opts instance_id cmd record_output) w in
  let t := trace (snd result) in
  fst result = Returned tt
  /\ timers t = []
  /\ (length (error_calls t) + length (success_calls t) = 1)%nat
  /\ match fst (api_find instance_id w) with
     | inl err => execs t = [] /\ error_calls t = [err]
     | inr None =>
         execs t = []
         /\ error_calls t
            = [Js.Message ("Unable to locate instance_id: " +:+ Js.to_string instance_id)]
     | inr (Some inst) =>
         let line := remote_cmd_of opts (ip_address inst) cmd in
         let x := fst (shell_exec line (snd (api_find instance_id w))) in
         execs t = [line]
         /\ (fst x = 0 -> success_calls t = [[snd x]])
         /\ (fst x <> 0 ->
             error_calls t
             = [Js.Message ("ssh returned with error code: " +:+ Js.num (fst x))])
     end.
Proof.
  intros result t. subst t result. unfold run, runInstanceCommand.
  rewrite bind_emit, bind_ask. cbn [world trace app].
  destruct (api_find instance_id w) as [[err|[inst|]] w1]; cbn [fst snd].
  - cbn [record_output]. unfold emit. cbn. repeat split.
  - cbv zeta. rewrite bind_log, bind_emit, bind_ask. cbn [world trace].
    destruct (shell_exec (remote_cmd_of opts (ip_address inst) cmd) w1)
      as [[code out] w2]. cbn [fst snd].
    destruct (Z.eqb_spec code 0) as [->|Hne]; cbn [negb];
      rewrite bind_log; cbn [world trace record_output]; unfold emit;
      cbn [fst snd world trace];
      rewrite !execs_app, !timers_app, !success_calls_app, !error_calls_app;
      repeat match goal with
             | |- context [logged opts ?l ?msg] =>
                 destruct (logged_silent opts l msg) as (-> & -> & -> & ->)
             end;
      cbn [execs timers error_calls success_calls omap list_omap app length Nat.add];
      repeat split; intros; congruence.
  - cbn [record_output]. unfold emit. cbn. repeat split.
Qed.

Lemma runInstanceCommand_reports_once_witness :
  error_calls (trace (snd (run (runInstanceCommand quiet (Js.Num 7) "uptime" record_output)
                               (Scripted 5000 [2] 0 (inr box)))))
    = [Js.Message "ssh returned with error code: 2"].
Proof.
  pose proof (runInstanceCommand_reports_once quiet (Js.Num 7) "uptime"
                (Scripted 5000 [2] 0 (inr box))) as Hthm.
  cbv zeta in Hthm. destruct Hthm as (_ & _ & _ & Hcase).
  cbn [api_find scripted_lookup found fst snd] in Hcase.
  destruct Hcase as (_ & _ & Hbad).
  rewrite Hbad; [reflexivity | vm_compute; discriminate].
Defined.

(** ** [copyFolder] *)

Lemma slice_last_app_nonempty (a b : string) :
  b <> EmptyString -> Js.slice_last (a +:+ b) = Js.slice_last b.
Proof.
  intros Hb. induction a as [|c a IH]; [reflexivity|].
  change (String c a +:+ b) with (String c (a +:+ b)).
  cbn [Js.slice_last]. rewrite IH.
  destruct (a +:+ b) eqn:Hab; [|reflexivity].
  destruct a; cbn in Hab; [contradiction | discriminate].
Qed.

(** X6.  A destination given without its trailing slash is synced
    exactly as the same destination with the slash: [copyFolder] behaves
    the same on both, for every callback and state. *)
Theorem copyFolder_trailing_slash_irrelevant {W : Type} `{Collab W} (opts : options)
    (instance_id : Js.ident) (src dest : string)
    (cb : Js.error + string -> prog W unit) (m : machine W) :
  Js.slice_last dest <> "/" ->
  copyFolder opts instance_id src dest cb m
  = copyFolder opts instance_id src (dest +:+ "/") cb m.
Proof.
  intros Hslash. unfold copyFolder.
  rewrite !bind_emit, !bind_ask. cbn [world trace].
  destruct (api_dropletGet instance_id (world m)) as [[err|inst] w1]; cbn [fst snd];
    [reflexivity|].
  rewrite (slice_last_app_nonempty dest "/") by discriminate.
  change (Js.slice_last "/") with "/".
  apply String.eqb_neq in Hslash. rewrite Hslash.
  rewrite String.eqb_refl. reflexivity.
Qed.

Lemma copyFolder_trailing_slash_irrelevant_witness :
  copyFolder quiet (Js.Num 7) "./app" "/srv/app" record_output
             (Machine (Scripted 5000 [] 0 (inr box)) [])
  = copyFolder quiet (Js.Num 7) "./app" "/srv/app/" record_output
               (Machine (Scripted 5000 [] 0 (inr box)) []).
Proof.
  apply (copyFolder_trailing_slash_irrelevant quiet (Js.Num 7) "./app" "/srv/app").
  vm_compute. discriminate.
Defined.

(** X7.  [copyFolder] calls back exactly once and runs at most one
    command, which is an rsync command whose remote destination ends in a
    slash.  The command is not run when the lookup fails; when it is run,
    exit code 0 hands over its output and any other exit code is reported
    with the command line in the message. *)
Theorem copyFolder_reports_once {W : Type} `{Collab W} (opts : options)
    (instance_id : Js.ident) (src dest : string) (w : W) :
  let result := run (copyFolder opts instance_id src dest record_output) w in
  let t := trace (snd result) in
  fst result = Returned tt
  /\ (length (error_calls t) + length (success_calls t) = 1)%nat
  /\ match fst (api_dropletGet instance_id w) with
     | inl err => execs t = [] /\ error_calls t = [err]
     | inr inst =>
         let line := rsync_cmd_for opts (Folder src dest) (ip_address inst) in
         let x := fst (shell_exec line (snd (api_dropletGet instance_id w))) in
         execs t = [line]
         /\ Js.slice_last line = "/"
         /\ (fst x = 0 -> success_calls t = [[snd x]])
         /\ (fst x <> 0 ->
             error_calls t = [Js.Message ("Error running rsync: " +:+ line)])
     end.
Proof.
  intros result t. subst t result. unfold run, copyFolder.
  rewrite bind_emit, bind_ask. cbn [world trace app].
  destruct (api_dropletGet instance_id w) as [[err|inst] w1]; cbn [fst snd].
  - cbn. repeat split.
  - rewrite bind_emit, bind_ask. cbn [world trace].
    unfold rsync_cmd_for. cbn [source destination].
    set (line := rsync_prefix opts +:+ src +:+ " root@" +:+ ip_address inst +:+ ":"
                   +:+ (if negb (Js.slice_last dest =? "/")%string
                        then dest +:+ "/" else dest)).
    destruct (shell_exec line w1) as [[code out] w2]. cbn [fst snd].
    assert (Hend : Js.slice_last line = "/").
    { subst line.
      assert (Hd : Js.slice_last (if negb (Js.slice_last dest =? "/")%string
                                  then dest +:+ "/" else dest) = "/"
                   /\ (if negb (Js.slice_last dest =? "/")%string
                       then dest +:+ "/" else dest) <> EmptyString).
      { destruct (String.eqb_spec (Js.slice_last dest) "/") as [Heq|Hne]; cbn [negb].
        - split; [exact Heq|]. intros ->. discriminate.
        - split; [apply slice_last_app_nonempty; discriminate|].
          destruct dest; discriminate. }
      destruct Hd as [Hd1 Hd2].
      rewrite <- !string_app_assoc.
      rewrite slice_last_app_nonempty by exact Hd2. exact Hd1. }
    destruct (Z.eqb_spec code 0) as [->|Hne]; cbn [negb record_output]; unfold emit;
      cbn [fst snd world trace app execs timers error_calls success_calls omap
           list_omap length];
      repeat split; intros; congruence.
Qed.

Lemma copyFolder_reports_once_witness :
  error_calls (trace (snd (run (copyFolder quiet (Js.Num 7) "./site" "/srv/site" record_output)
                               (Scripted 5000 [23] 0 (inr box)))))
    = [Js.Message ("Error running rsync: "
                     +:+ rsync_cmd_for quiet (Folder "./site" "/srv/site") "10.0.0.7")].
Proof.
  pose proof (copyFolder_reports_once quiet (Js.Num 7) "./site" "/srv/site"
                (Scripted 5000 [23] 0 (inr box))) as Hthm.
  cbv zeta in Hthm. destruct Hthm as (_ & _ & Hcase).
  cbn [api_dropletGet scripted_collab found fst snd] in Hcase.
  destruct Hcase as (_ & _ & _ & Hbad).
  rewrite Hbad; [reflexivity | vm_compute; discriminate].
Defined.

(** ** [executeInstanceScript] *)

(** X8.  When the instance lookup fails, [executeInstanceScript] hands
    the lookup's error to its callback and runs no command at all. *)
Theorem script_lookup_failure_runs_nothing {W : Type} `{Collab W} (opts : options)
    (instance_id : Js.ident) (script : string) (w : W) (err : Js.error) :
  fst (api_dropletGet instance_id w) = inl err ->
  let result := run (executeInstanceScript opts instance_id script record_output) w in
  fst result = Returned tt
  /\ execs (trace (snd result)) = []
  /\ timers (trace (snd result)) = []
  /\ error_calls (trace (snd result)) = [err]
  /\ success_calls (trace (snd result)) = [].
Proof.
  intros Hfail result. subst result. unfold run, executeInstanceScript.
  rewrite bind_log, bind_emit, bind_ask. cbn [world trace].
  rewrite Hfail. cbn [record_output]. unfold emit. cbn [fst snd world trace].
  rewrite !execs_app, !timers_app, !error_calls_app, !success_calls_app.
  destruct (logged_silent opts "info"
              ("Executing `" +:+ script +:+ "` script against instance_id: "
                 +:+ Js.to_string instance_id)) as (-> & -> & -> & ->).
  repeat split.
Qed.

Lemma script_lookup_failure_runs_nothing_witness :
  execs (trace (snd (run (executeInstanceScript verbose (Js.Num 7) "setup.sh" record_output)
                         (Scripted 5000 [] 0 (inl (Js.Provider "not found")))))) = [].
Proof.
  apply (script_lookup_failure_runs_nothing verbose (Js.Num 7) "setup.sh"
           (Scripted 5000 [] 0 (inl (Js.Provider "not found"))) (Js.Provider "not found")).
  reflexivity.
Defined.

(** X9.  When the lookup succeeds, the first copy attempt exits with 0
    and the script exits with 0, the pipeline runs exactly two commands:
    the scp to the staging path, then the ssh command that marks
    executable and runs that same staging path on the same host; no timer
    is armed and the callback gets the script's output, once. *)
Theorem script_pipeline_copies_then_runs {W : Type} `{Collab W} (opts : options)
    (instance_id : Js.ident) (script : string) (w : W) (inst : instance) :
  fst (api_dropletGet instance_id w) = inr inst ->
  let w1 := snd (api_dropletGet instance_id w) in
  let tp := target_path_at script (now_ms w1) in
  let scp := copy_cmd_of opts (ip_address inst) script tp in
  let ssh := script_cmd_of opts (ip_address inst) tp in
  fst (fst (shell_exec scp w1)) = 0 ->
  fst (fst (shell_exec ssh (snd (shell_exec scp w1)))) = 0 ->
  let result := run (executeInstanceScript opts instance_id script record_output) w in
  fst result = Returned tt
  /\ execs (trace (snd result)) = [scp; ssh]
  /\ timers (trace (snd result)) = []
  /\ error_calls (trace (snd result)) = []
  /\ success_calls (trace (snd result))
     = [[snd (fst (shell_exec ssh (snd (shell_exec scp w1))))]].
Proof.
  intros Hfound w1 tp scp ssh Hcopy Hrun result. subst result.
  unfold run, executeInstanceScript.
  rewrite bind_log, bind_emit, bind_ask. cbn [world trace].
  rewrite Hfound. fold w1. unfold _copyInstanceScript.
  rewrite bind_read. cbn [world]. fold tp. fold scp.
  rewrite bind_log. cbn [world trace].
  change 11%nat with (S 10). cbn [kopy].
  rewrite bind_emit, bind_ask. cbn [world trace].
  rewrite Hcopy. cbn [Z.eqb negb]. rewrite bind_log. cbn [world trace].
  cbn [copied_ip copied_target]. unfold _executeExistingInstanceScript. fold ssh.
  rewrite bind_log, bind_emit, bind_ask. cbn [world trace].
  rewrite Hrun. cbn [Z.eqb negb]. rewrite bind_log. cbn [world trace record_output].
  unfold emit. cbn [fst snd world trace].
  rewrite !execs_app, !timers_app, !error_calls_app, !success_calls_app.
  repeat match goal with
         | |- context [logged opts ?l ?msg] =>
             destruct (logged_silent opts l msg) as (-> & -> & -> & ->)
         end.
  repeat split.
Qed.

Lemma script_pipeline_copies_then_runs_witness :
  timers (trace (snd (run (executeInstanceScript verbose (Js.Num 7) "setup.sh" record_output)
                          (Scripted 5000 [] 0 (inr box))))) = [].
Proof.
  pose proof (script_pipeline_copies_then_runs verbose (Js.Num 7) "setup.sh"
                (Scripted 5000 [] 0 (inr box)) box eq_refl) as Hthm.
  cbv zeta in Hthm.
  destruct Hthm as (_ & _ & Htimers & _);
    [vm_compute; reflexivity | vm_compute; reflexivity | exact Htimers].
Defined.

(** ** The copy step under any sequence of exit codes *)

Section CopyFacts.
Context {W : Type} `{Collab W} (opts : options).
Variables (ip script tp cmd : string).

Lemma kopy_success_now (fuel attempts : nat) (m : machine W) :
  fst (fst (shell_exec cmd (world m))) = 0 ->
  kopy opts ip script tp cmd record_copy (S fuel) attempts m =
    (Returned tt,
     Machine (snd (shell_exec cmd (world m)))
             (trace m ++ [Exec cmd]
                ++ logged opts "info" (copy_succeeded_msg ip script)
                ++ [CalledOk "cb" [ip; tp]])).
Proof.
  intros Hc. cbn [kopy]. rewrite bind_emit, bind_ask. cbn [world trace].
  rewrite Hc. cbn [Z.eqb negb]. rewrite bind_log. cbn [world trace record_copy].
  unfold emit. cbn [world trace copied_ip copied_target].
  rewrite <- !app_assoc. reflexivity.
Qed.

Lemma exit_code_at_shift (j : nat) (w : W) :
  exit_code_at cmd (S j) w = exit_code_at cmd j (snd (shell_exec cmd w)).
Proof. unfold exit_code_at, after_attempts. now rewrite Nat.iter_succ_r. Qed.

Lemma success_calls_rounds (k : nat) :
  success_calls (concat (replicate k (retried_round opts ip script tp cmd)))
    = replicate k [ip; tp].
Proof.
  induction k as [|k IH]; [reflexivity|].
  cbn [replicate concat]. rewrite success_calls_app, IH. unfold retried_round.
  rewrite !success_calls_app.
  destruct (logged_silent opts "info" (copy_succeeded_msg ip script))
    as (_ & _ & _ & ->). reflexivity.
Qed.

(** [k] failed attempts followed by a success. *)
Lemma kopy_succeeding :
  forall (k attempts fuel : nat) (m : machine W),
    (attempts + k <= 10)%nat -> (k < fuel)%nat ->
    (forall j, (j < k)%nat -> exit_code_at cmd j (world m) <> 0) ->
    exit_code_at cmd k (world m) = 0 ->
    exists w',
      kopy opts ip script tp cmd record_copy fuel attempts m =
        (Returned tt,
         Machine w' (trace m
                       ++ concat (replicate k (retried_round opts ip script tp cmd))
                       ++ [Exec cmd]
                       ++ logged opts "info" (copy_succeeded_msg ip script)
                       ++ [CalledOk "cb" [ip; tp]])).
Proof.
  induction k as [|k IH]; intros attempts fuel m Hk Hfuel Hfail Hok;
    (destruct fuel as [|fuel]; [lia|]).
  - rewrite exit_code_at_0 in Hok. rewrite kopy_success_now by exact Hok.
    eexists. reflexivity.
  - pose proof (Hfail 0%nat (Nat.lt_0_succ _)) as Hc. rewrite exit_code_at_0 in Hc.
    rewrite kopy_retry by first [exact Hc | lia].
    cbn [record_copy]. rewrite bind_emit. cbn [world trace copied_ip copied_target].
    destruct (IH (S attempts) fuel
                (Machine (snd (shell_exec cmd (world m)))
                         ((trace m ++ [Exec cmd; SetTimeout 120000]
                             ++ logged opts "info" (copy_succeeded_msg ip script))
                            ++ [CalledOk "cb" [ip; tp]])))
      as [w' Hrun]; [lia | lia | | |].
    + intros j Hj. cbn [world]. rewrite <- exit_code_at_shift. apply Hfail. lia.
    + cbn [world]. rewrite <- exit_code_at_shift. exact Hok.
    + exists w'. rewrite Hrun. cbn [trace]. f_equal. f_equal.
      cbn [replicate concat]. unfold retried_round.
      rewrite <- !app_assoc. reflexivity.
Qed.

(** Whatever the exit codes, [kopy] ends after at most the attempts
    left, with one timer between consecutive attempts, at most one error
    and one callback invocation per attempt. *)
Lemma kopy_bounded :
  forall (fuel attempts : nat) (m : machine W),
    (attempts <= 10)%nat -> (11 <= attempts + fuel)%nat ->
    exists (n : nat) w' acts,
      (1 <= n <= 11 - attempts)%nat
      /\ kopy opts ip script tp cmd record_copy fuel attempts m
         = (Returned tt, Machine w' (trace m ++ acts))
      /\ execs acts = replicate n cmd
      /\ timers acts = replicate (n - 1) 120000
      /\ (length (error_calls acts) <= 1)%nat
      /\ (length (success_calls acts) + length (error_calls acts) = n)%nat.
Proof.
  induction fuel as [|fuel IH]; intros attempts m Hle Hfuel; [lia|].
  destruct (Z.eq_dec (fst (fst (shell_exec cmd (world m)))) 0) as [Hok|Hbad].
  - rewrite kopy_success_now by exact Hok.
    exists 1%nat. eexists _, _. split; [lia|]. split; [reflexivity|].
    rewrite !execs_app, !timers_app, !error_calls_app, !success_calls_app.
    destruct (logged_silent opts "info" (copy_succeeded_msg ip script))
      as (-> & -> & -> & ->).
    cbn. repeat split; lia.
  - destruct (Nat.eq_dec attempts 10%nat) as [->|Hne].
    + cbn [kopy]. rewrite bind_emit, bind_ask. cbn [world trace].
      apply Z.eqb_neq in Hbad. rewrite Hbad. cbn [negb Nat.ltb Nat.leb].
      rewrite bind_log. cbn [world trace record_copy]. unfold emit. cbn [world trace].
      exists 1%nat. eexists _, _. split; [lia|].
      split; [rewrite <- !app_assoc; reflexivity|].
      rewrite !execs_app, !timers_app, !error_calls_app, !success_calls_app.
      destruct (logged_silent opts "error"
                  "Error copying provisioning script to target host")
        as (-> & -> & -> & ->).
      cbn. repeat split; lia.
    + rewrite kopy_retry by first [exact Hbad | lia].
      cbn [record_copy]. rewrite bind_emit. cbn [world trace copied_ip copied_target].
      destruct (IH (S attempts)
                  (Machine (snd (shell_exec cmd (world m)))
                           ((trace m ++ [Exec cmd; SetTimeout 120000]
                               ++ logged opts "info" (copy_succeeded_msg ip script))
                              ++ [CalledOk "cb" [ip; tp]])))
        as (n & w' & acts & Hn & Hrun & He & Ht & Herr & Hcalls); [lia | lia |].
      exists (S n), w'.
      exists (([Exec cmd; SetTimeout 120000]
                 ++ logged opts "info" (copy_succeeded_msg ip script)
                 ++ [CalledOk "cb" [ip; tp]]) ++ acts).
      split; [lia|].
      split; [rewrite Hrun; cbn [trace]; rewrite <- !app_assoc; reflexivity|].
      rewrite !execs_app, !timers_app, !error_calls_app, !success_calls_app.
      destruct (logged_silent opts "info" (copy_succeeded_msg ip script))
        as (-> & -> & -> & ->).
      rewrite He, Ht.
      cbn [execs timers error_calls success_calls omap list_omap app length].
      replace (S n - 1)%nat with (S (n - 1)) by lia.
      repeat split; cbn [replicate length Nat.add]; lia.
Qed.
End CopyFacts.

(** X10.  Whatever the exit codes of the copy attempts, the copy step
    comes to an end after between 1 and 11 attempts of the same scp
    command, arms the 120000 ms timer exactly once between consecutive
    attempts, reports at most one error and invokes its callback once per
    attempt. *)
Theorem copy_never_exceeds_eleven_attempts {W : Type} `{Collab W}
    (opts : options) (ip script : string) (w : W) :
  let tp := target_path_at script (now_ms w) in
  let cmd := copy_cmd_of opts ip script tp in
  let result := run (_copyInstanceScript opts ip script record_copy) w in
  let t := trace (snd result) in
  fst result = Returned tt
  /\ exists n : nat,
       (1 <= n <= 11)%nat
       /\ execs t = replicate n cmd
       /\ timers t = replicate (n - 1) 120000
       /\ (length (error_calls t) <= 1)%nat
       /\ (length (success_calls t) + length (error_calls t) = n)%nat.
Proof.
  intros tp cmd result t. subst t result. unfold run, _copyInstanceScript.
  rewrite bind_read. cbn [world]. fold tp. fold cmd. rewrite bind_log.
  cbn [world trace app].
  destruct (kopy_bounded opts ip script tp cmd 11 0
              (Machine w (logged opts "info"
                            ("Copy script `" +:+ script +:+ "` to ip_address: " +:+ ip))))
    as (n & w' & acts & Hn & Hrun & He & Ht & Herr & Hcalls); [lia | lia |].
  rewrite Hrun. cbn [fst snd trace]. split; [reflexivity|].
  exists n. split; [lia|].
  rewrite !execs_app, !timers_app, !error_calls_app, !success_calls_app.
  destruct (logged_silent opts "info"
              ("Copy script `" +:+ script +:+ "` to ip_address: " +:+ ip))
    as (-> & -> & -> & ->).
  cbn [app length]. repeat split; assumption.
Qed.

(** X11.  When the first [k] copy attempts fail ([k] at most 10) and the
    next one succeeds, the copy step makes exactly [k + 1] attempts, arms
    [k] timers of 120000 ms, reports no error, and has invoked its
    callback with the staging path after every one of the [k + 1]
    attempts. *)
Theorem copy_stops_at_first_success {W : Type} `{Collab W}
    (opts : options) (ip script : string) (w : W) (k : nat) :
  let tp := target_path_at script (now_ms w) in
  let cmd := copy_cmd_of opts ip script tp in
  let result := run (_copyInstanceScript opts ip script record_copy) w in
  let t := trace (snd result) in
  (k <= 10)%nat ->
  (forall j, (j < k)%nat -> exit_code_at cmd j w <> 0) ->
  exit_code_at cmd k w = 0 ->
  fst result = Returned tt
  /\ execs t = replicate (S k) cmd
  /\ timers t = replicate k 120000
  /\ error_calls t = []
  /\ success_calls t = replicate (S k) [ip; tp].
Proof.
  intros tp cmd result t Hk Hfail Hok. subst t result.
  unfold run, _copyInstanceScript.
  rewrite bind_read. cbn [world]. fold tp. fold cmd. rewrite bind_log.
  cbn [world trace app].
  destruct (kopy_succeeding opts ip script tp cmd k 0 11
              (Machine w (logged opts "info"
                            ("Copy script `" +:+ script +:+ "` to ip_address: " +:+ ip))))
    as [w' Hrun]; [lia | lia | exact Hfail | exact Hok |].
  rewrite Hrun. cbn [fst snd trace]. split; [reflexivity|].
  rewrite !execs_app, !timers_app, !error_calls_app, !success_calls_app.
  rewrite execs_rounds, timers_rounds, error_calls_rounds, success_calls_rounds.
  destruct (logged_silent opts "info"
              ("Copy script `" +:+ script +:+ "` to ip_address: " +:+ ip))
    as (-> & -> & -> & ->).
  destruct (logged_silent opts "info" (copy_succeeded_msg ip script))
    as (-> & -> & -> & ->).
  cbn [app execs timers error_calls success_calls omap list_omap].
  rewrite app_nil_r.
  repeat split.
  - change [cmd] with (replicate 1 cmd). rewrite <- replicate_add.
    f_equal. lia.
  - change [[ip; tp]] with (replicate 1 [ip; tp]). rewrite <- replicate_add.
    f_equal. lia.
Qed.

Lemma copy_stops_at_first_success_witness :
  timers (trace (snd (run (_copyInstanceScript verbose "10.0.0.7" "setup.sh" record_copy)
                          (Scripted 5000 [1; 1; 0] 0 (inr box)))))
    = replicate 2 120000.
Proof.
  pose proof (copy_stops_at_first_success verbose "10.0.0.7" "setup.sh"
                (Scripted 5000 [1; 1; 0] 0 (inr box)) 2) as Hthm.
  cbv zeta in Hthm.
  destruct Hthm as (_ & _ & Htimers & _); [lia | | vm_compute; reflexivity | exact Htimers].
  intros j Hj. do 2 (destruct j as [|j]; [vm_compute; discriminate|]). lia.
Defined.

(** ** Logging *)

Section LogFacts.
Context {W : Type} `{Collab W}.

Lemma logless_ret {A} (a : A) : logless (ret (W:=W) a).
Proof. intros m Hm. exact Hm. Qed.

Lemma logless_throw {A} e : logless (throw (W:=W) (A:=A) e).
Proof. intros m Hm. exact Hm. Qed.

Lemma logless_out_of_fuel {A} : logless (out_of_fuel (W:=W) (A:=A)).
Proof. intros m Hm. exact Hm. Qed.

Lemma logless_emit (a : action) : is_log a = false -> logless (emit (W:=W) a).
Proof.
  intros Ha m Hm. cbn. apply Forall_app. split; [exact Hm|].
  constructor; [exact Ha | constructor].
Qed.

Lemma logless_ask {A} (f : W -> A * W) : logless (ask f).
Proof. intros m Hm. unfold ask. destruct (f (world m)). exact Hm. Qed.

Lemma logless_read {A} (f : W -> A) : logless (read f).
Proof. intros m Hm. exact Hm. Qed.

Lemma logless_bind {A B} (p : prog W A) (k : A -> prog W B) :
  logless p -> (forall a, logless (k a)) -> logless (bind p k).
Proof.
  intros Hp Hk m Hm. unfold bind. specialize (Hp m Hm).
  destruct (p m) as [[a| |] m1]; cbn [snd] in *; [|exact Hp|exact Hp].
  apply Hk. exact Hp.
Qed.

Lemma logless_log (opts : options) level msg :
  enable_logging opts = false -> logless (_log (W:=W) opts level msg).
Proof. intros Hoff. unfold _log. rewrite Hoff. apply logless_ret. Qed.

Lemma logless_record_output r : logless (record_output (W:=W) r).
Proof. destruct r; apply logless_emit; reflexivity. Qed.

Lemma logless_record_final r : logless (record_final (W:=W) r).
Proof. destruct r; apply logless_emit; reflexivity. Qed.

Lemma logless_kopy opts ip script tp cmd (cb : Js.error + copied -> prog W unit) :
  enable_logging opts = false -> (forall r, logless (cb r)) ->
  forall fuel attempts, logless (kopy opts ip script tp cmd cb fuel attempts).
Proof.
  intros Hoff Hcb. induction fuel as [|fuel IH]; intros attempts; cbn [kopy].
  - apply logless_out_of_fuel.
  - apply logless_bind; [apply logless_emit; reflexivity|]. intros _.
    apply logless_bind; [apply logless_ask|]. intros r.
    destruct (negb (fst r =? 0)).
    + destruct (10 <? S attempts)%nat.
      * apply logless_bind; [apply logless_log; exact Hoff | intros _; apply Hcb].
      * apply logless_bind; [apply logless_emit; reflexivity|]. intros _.
        apply logless_bind; [apply logless_log; exact Hoff|]. intros _.
        apply logless_bind; [apply Hcb | intros _; apply IH].
    + apply logless_bind; [apply logless_log; exact Hoff | intros _; apply Hcb].
Qed.

Lemma logless_execute opts ip script_path (cb : Js.error + string -> prog W unit) :
  enable_logging opts = false -> (forall r, logless (cb r)) ->
  logless (_executeExistingInstanceScript opts ip script_path cb).
Proof.
  intros Hoff Hcb. unfold _executeExistingInstanceScript.
  apply logless_bind; [apply logless_log; exact Hoff|]. intros _.
  apply logless_bind; [apply logless_emit; reflexivity|]. intros _.
  apply logless_bind; [apply logless_ask|]. intros r.
  destruct (negb (fst r =? 0)).
  - destruct (in_scope exec_callback_scope "cmd").
    + apply logless_bind; [apply logless_log; exact Hoff | intros _; apply Hcb].
    + apply logless_throw.
  - apply logless_bind; [apply logless_log; exact Hoff | intros _; apply Hcb].
Qed.

Lemma logless_executeInstanceScript opts instance_id script
    (cb : Js.error + string -> prog W unit) :
  enable_logging opts = false -> (forall r, logless (cb r)) ->
  logless (executeInstanceScript opts instance_id script cb).
Proof.
  intros Hoff Hcb. unfold executeInstanceScript.
  apply logless_bind; [apply logless_log; exact Hoff|]. intros _.
  apply logless_bind; [apply logless_emit; reflexivity|]. intros _.
  apply logless_bind; [apply logless_ask|]. intros [err|inst]; [apply Hcb|].
  unfold _copyInstanceScript.
  apply logless_bind; [apply logless_read|]. intros clock.
  apply logless_bind; [apply logless_log; exact Hoff|]. intros _.
  apply logless_kopy; [exact Hoff|]. intros [err|c]; [apply Hcb|].
  apply logless_execute; [exact Hoff|]. intros [e|o]; apply Hcb.
Qed.

Lemma logless_copyFolder opts instance_id src dest
    (cb : Js.error + string -> prog W unit) :
  (forall r, logless (cb r)) -> logless (copyFolder opts instance_id src dest cb).
Proof.
  intros Hcb. unfold copyFolder.
  apply logless_bind; [apply logless_emit; reflexivity|]. intros _.
  apply logless_bind; [apply logless_ask|]. intros [err|inst]; [apply Hcb|].
  apply logless_bind; [apply logless_emit; reflexivity|]. intros _.
  apply logless_bind; [apply logless_ask|]. intros x.
  destruct (negb (fst x =? 0)); apply Hcb.
Qed.

Lemma logless_series {A} (tasks : list ((Js.error + A -> prog W unit) -> prog W unit))
    (callback : Js.error + list A -> prog W unit) :
  Forall (fun task => forall cb, (forall r, logless (cb r)) -> logless (task cb)) tasks ->
  (forall r, logless (callback r)) ->
  forall acc, logless (series tasks acc callback).
Proof.
  intros Htasks Hcb. induction Htasks as [|task tasks Htask _ IH]; intros acc;
    cbn [series]; [apply Hcb|].
  apply Htask. intros [err|a]; [apply Hcb | apply IH].
Qed.

Lemma logless_configure opts req inst :
  enable_logging opts = false ->
  logless (configure opts req inst record_final).
Proof.
  intros Hoff.
  assert (Hscripts : logless (runScripts opts req inst record_final)).
  { unfold runScripts. destruct (scripts req) as [[|s more]|];
      try apply logless_record_final.
    unfold executeScripts.
    apply logless_bind; [apply logless_log; exact Hoff|]. intros _.
    apply logless_bind; [apply logless_emit; reflexivity|]. intros _.
    apply logless_bind; [apply logless_ask|]. intros [err|ds]; [apply logless_throw|].
    apply logless_bind; [apply logless_log; exact Hoff|]. intros _.
    apply logless_series.
    - apply Forall_forall. intros task Htask.
      apply list_elem_of_In, in_map_iff in Htask as (sc & <- & _). intros cb Hcb.
      apply logless_executeInstanceScript; assumption.
    - intros [err|r]; apply logless_record_final. }
  unfold configure. destruct (folders req) as [fs|]; [|exact Hscripts].
  apply logless_series.
  - apply Forall_forall. intros task Htask.
    apply list_elem_of_In, in_map_iff in Htask as (f & <- & _). intros cb Hcb.
    apply logless_copyFolder. exact Hcb.
  - intros [err|r]; [apply logless_record_final | exact Hscripts].
Qed.
End LogFacts.

(** X12.  With logging disabled, configuring an instance (its folder
    syncs and its scripts, through every copy retry) writes no log line,
    in whatever way the collaborators answer. *)
Theorem disabled_logging_logs_nothing {W : Type} `{Collab W}
    (opts : options) (req : request) (inst : instance) (w : W) :
  enable_logging opts = false ->
  Forall (fun a => is_log a = false)
         (trace (snd (run (configure opts req inst record_final) w))).
Proof.
  intros Hoff. apply (logless_configure opts req inst Hoff). constructor.
Qed.

Lemma disabled_logging_logs_nothing_witness :
  Forall (fun a => is_log a = false)
         (trace (snd (run (configure quiet sample_request box record_final)
                          (Scripted 5000 [0; 0; 0; 1] 0 (inr box))))).
Proof.
  apply (disabled_logging_logs_nothing quiet sample_request box). reflexivity.
Defined.

(** ** [executeScripts] *)

Section CalmFacts.
Context {W : Type} `{Collab W} (opts : options).
Hypothesis Hexec : forall cmd (w : W), fst (fst (shell_exec cmd w)) = 0.
Hypothesis Hfind : forall id (w : W), exists inst, fst (api_dropletGet id w) = inr inst.

(** With every lookup and command succeeding, one script's pipeline is
    its scp and then its ssh, after which the callback gets the
    output. *)
Lemma calm_script (instance_id : Js.ident) (script : string)
    (cb : Js.error + string -> prog W unit) (m : machine W) :
  exists out w' stage acts,
    executeInstanceScript opts instance_id script cb m
      = cb (inr out) (Machine w' (trace m ++ acts))
    /\ execs acts = pipeline_cmds opts script stage
    /\ timers acts = [] /\ error_calls acts = [] /\ success_calls acts = [].
Proof.
  unfold executeInstanceScript.
  rewrite bind_log, bind_emit, bind_ask. cbn [world trace].
  destruct (Hfind instance_id (world m)) as [inst Hinst]. rewrite Hinst.
  unfold _copyInstanceScript. rewrite bind_read. cbn [world].
  set (w1 := snd (api_dropletGet instance_id (world m))).
  set (tp := target_path_at script (now_ms w1)).
  set (scp := copy_cmd_of opts (ip_address inst) script tp).
  rewrite bind_log. cbn [world trace].
  change 11%nat with (S 10). cbn [kopy].
  rewrite bind_emit, bind_ask. cbn [world trace].
  rewrite Hexec. cbn [Z.eqb negb]. rewrite bind_log. cbn [world trace].
  cbn [copied_ip copied_target]. unfold _executeExistingInstanceScript.
  set (ssh := script_cmd_of opts (ip_address inst) tp).
  rewrite bind_log, bind_emit, bind_ask. cbn [world trace].
  rewrite Hexec. cbn [Z.eqb negb]. rewrite bind_log. cbn [world trace].
  eexists _, _, (ip_address inst, tp), _. split.
  - rewrite <- !app_assoc. reflexivity.
  - rewrite !execs_app, !timers_app, !error_calls_app, !success_calls_app.
    repeat match goal with
           | |- context [logged opts ?l ?msg] =>
               destruct (logged_silent opts l msg) as (-> & -> & -> & ->)
           end.
    repeat split.
Qed.

Lemma calm_series (instance_id : Js.ident)
    (callback : Js.error + list string -> prog W unit) :
  forall (names : list string) (acc : list string) (m : machine W),
    exists outs w' stages acts,
      series (map (fun script cb => executeInstanceScript opts instance_id script cb)
                  names) acc callback m
        = callback (inr (rev acc ++ outs)) (Machine w' (trace m ++ acts))
      /\ length outs = length names
      /\ length stages = length names
      /\ execs acts = concat (zip_with (pipeline_cmds opts) names stages)
      /\ timers acts = [] /\ error_calls acts = [] /\ success_calls acts = [].
Proof.
  induction names as [|script names IH]; intros acc m.
  - exists [], (world m), [], []. cbn [map series]. rewrite !app_nil_r.
    destruct m. repeat split.
  - cbn [map series].
    destruct (calm_script instance_id script
                (fun r => match r with
                          | inl err => callback (inl err)
                          | inr a =>
                              series
                                (map (fun script cb =>
                                        executeInstanceScript opts instance_id script cb)
                                     names) (a :: acc) callback
                          end) m)
      as (out & w1 & stage & acts1 & -> & He1 & Ht1 & Hr1 & Hs1).
    destruct (IH (out :: acc) (Machine w1 (trace m ++ acts1)))
      as (outs & w2 & stages & acts2 & -> & Hlo & Hls & He2 & Ht2 & Hr2 & Hs2).
    exists (out :: outs), w2, (stage :: stages), (acts1 ++ acts2).
    cbn [trace rev length zip_with concat].
    rewrite <- !app_assoc. cbn [app].
    rewrite !execs_app, !timers_app, !error_calls_app, !success_calls_app.
    rewrite He1, He2, Ht1, Ht2, Hr1, Hr2, Hs1, Hs2, Hlo, Hls.
    repeat split.
Qed.
End CalmFacts.

(** X13.  In a world where every lookup finds the instance and every
    command exits with 0, [executeScripts] runs the scripts strictly in
    the order supplied: for each script in turn its scp and then the ssh
    command on the path just staged, and nothing else; no timer is armed
    and [final_cb] is invoked once, without error, with one output per
    script. *)
Theorem scripts_run_in_order {W : Type} `{Collab W} (opts : options)
    (instance_id : Js.ident) (scripts : list string) (w : W) :
  (forall cmd (w' : W), fst (fst (shell_exec cmd w')) = 0) ->
  (forall id (w' : W), exists inst, fst (api_dropletGet id w') = inr inst) ->
  (exists droplets, fst (api_dropletGetAll w) = inr droplets) ->
  let result := run (executeScripts opts instance_id scripts record_results) w in
  let t := trace (snd result) in
  fst result = Returned tt
  /\ timers t = [] /\ error_calls t = []
  /\ (exists outs, length outs = length scripts /\ success_calls t = [outs])
  /\ exists stages,
       length stages = length scripts
       /\ execs t = concat (zip_with (pipeline_cmds opts) scripts stages).
Proof.
  intros Hexec Hfind [droplets Hlist] result t. subst t result.
  unfold run, executeScripts.
  rewrite bind_log, bind_emit, bind_ask. cbn [world trace].
  rewrite Hlist. rewrite bind_log. cbn [world trace].
  destruct (calm_series opts Hexec Hfind instance_id
              (fun r => match r with
                        | inl err => record_results (inl err)
                        | inr result => record_results (inr [result])
                        end)
              scripts []
              (Machine (snd (api_dropletGetAll w))
                       (((([] ++ logged opts "info" "Executing provisioning scripts")
                            ++ [DropletGetAll]))
                          ++ logged opts "info"
                               ("Executing scripts against instance_id "
                                  +:+ Js.to_string instance_id))))
    as (outs & w2 & stages & acts & -> & Hlo & Hls & He & Ht & Hr & Hs).
  cbn [rev app record_results concat]. unfold emit. cbn [fst snd world trace].
  rewrite !execs_app, !timers_app, !error_calls_app, !success_calls_app.
  rewrite He, Ht, Hr, Hs.
  repeat match goal with
         | |- context [logged opts ?l ?msg] =>
             destruct (logged_silent opts l msg) as (-> & -> & -> & ->)
         end.
  cbn [app execs timers error_calls success_calls omap list_omap].
  rewrite ?app_nil_r.
  split; [reflexivity|]. split; [reflexivity|]. split; [reflexivity|].
  split; [exists outs; split; [exact Hlo | reflexivity]|].
  exists stages. split; [exact Hls|]. reflexivity.
Qed.

Lemma scripts_run_in_order_witness :
  timers (trace (snd (run (executeScripts verbose (Js.Num 7) ["node"; "nginx"]
                             record_results) (5000 : Z)))) = [].
Proof.
  pose proof (scripts_run_in_order verbose (Js.Num 7) ["node"; "nginx"] (5000 : Z)) as Hthm.
  cbv zeta in Hthm.
  destruct Hthm as (_ & Htimers & _); [| | | exact Htimers].
  - intros cmd w'. reflexivity.
  - intros id w'. exists box. reflexivity.
  - exists [box]. reflexivity.
Defined.

(** X14.  When the listing call of [executeScripts] fails, the error is
    thrown: no script is started, no command is run and [final_cb] is
    never invoked. *)
Theorem script_listing_error_is_thrown {W : Type} `{Collab W} (opts : options)
    (instance_id : Js.ident) (scripts : list string) (w : W) (err : Js.error) :
  fst (api_dropletGetAll w) = inl err ->
  let result := run (executeScripts opts instance_id scripts record_results) w in
  let t := trace (snd result) in
  (exists exn, fst result = Thrown exn)
  /\ execs t = [] /\ lookups t = []
  /\ error_calls t = [] /\ success_calls t = [].
Proof.
  intros Hlist result t. subst t result. unfold run, executeScripts.
  rewrite bind_log, bind_emit, bind_ask. cbn [world trace].
  rewrite Hlist. unfold throw. cbn [fst snd trace].
  split; [eexists; reflexivity|].
  rewrite !execs_app, !lookups_app, !error_calls_app, !success_calls_app.
  destruct (logged_silent opts "info" "Executing provisioning scripts")
    as (-> & _ & -> & ->).
  assert (lookups (logged opts "info" "Executing provisioning scripts") = []) as ->
    by (unfold logged; destruct (enable_logging opts); reflexivity).
  repeat split.
Qed.

Lemma script_listing_error_is_thrown_witness :
  success_calls (trace (snd (run (executeScripts verbose (Js.Num 7) ["node"] record_results)
                                 (Catalogue (inl (Js.Provider "503")))))) = [].
Proof.
  apply (script_listing_error_is_thrown verbose (Js.Num 7) ["node"]
           (Catalogue (inl (Js.Provider "503"))) (Js.Provider "503")).
  reflexivity.
Defined.

(** X15.  A request with no folder to sync (no array, or an empty one)
    and no script to run (no array, or an empty one) is reported ready at
    once: configuring it does nothing but hand the instance to
    [finalCb]. *)
Theorem nothing_to_configure_reports_instance {W : Type} `{Collab W} (opts : options)
    (req : request) (inst : instance) (w : W) :
  (folders req = None \/ folders req = Some []) ->
  (scripts req = None \/ scripts req = Some []) ->
  run (configure opts req inst record_final) w
    = (Returned tt, Machine w [CalledOk "finalCb" [Js.to_string (inst_id inst)]]).
Proof.
  intros [Hf|Hf] [Hs|Hs]; unfold run, configure, runScripts;
    rewrite Hf, ?Hs; cbn [map series]; rewrite ?Hs; reflexivity.
Qed.

Lemma nothing_to_configure_reports_instance_witness :
  run (configure verbose bare_request box record_final) (Scripted 5000 [] 1 (inr box))
    = (Returned tt,
       Machine (Scripted 5000 [] 1 (inr box)) [CalledOk "finalCb" ["7"]]).
Proof.
  apply (nothing_to_configure_reports_instance verbose bare_request box);
    [left | right]; reflexivity.
Defined.

(** ** More on the droplet lifecycle *)

Module LifecycleMore.
Import Lifecycle LifecycleFacts.

Ltac cases :=
  unfold step, on_event_reply, cb, clear, polling_started, disarmed,
         stages_follow, settled, outcomes_delivered in *;
  cbn [start created interval called creating polls port_waits settles crashed
       fst snd] in *;
  repeat (case_match; simplify_eq/=);
  cbn [start created interval called creating polls port_waits settles crashed
       fst snd] in *;
  simplify_eq/=.

(** Every outcome a step delivers flips [called], which never flips
    back. *)
Lemma step_outcomes st clock_ms ev st' effs :
  step st clock_ms ev = Some (st', effs) ->
  (outcomes_delivered effs + (if called st then 1 else 0)
   = if called st' then 1 else 0)%nat.
Proof. intros Hstep. destruct st, ev; cases; reflexivity. Qed.

Lemma outcomes_app a b :
  outcomes_delivered (a ++ b) = (outcomes_delivered a + outcomes_delivered b)%nat.
Proof. unfold outcomes_delivered. rewrite List.filter_app, length_app. reflexivity. Qed.

Lemma run_outcomes evs : forall st st' effs,
  run st evs = Some (st', effs) ->
  (outcomes_delivered effs + (if called st then 1 else 0)
   = if called st' then 1 else 0)%nat.
Proof.
  induction evs as [|[c ev] evs IH]; intros st st' effs Hrun; cbn [run] in Hrun.
  - inversion Hrun; subst. reflexivity.
  - destruct (step st c ev) as [[st1 e1]|] eqn:Hstep; [|discriminate].
    destruct (run st1 evs) as [[st2 e2]|] eqn:Hrest; [|discriminate].
    inversion Hrun; subst. rewrite outcomes_app.
    pose proof (step_outcomes _ _ _ _ _ Hstep). pose proof (IH _ _ _ Hrest). lia.
Qed.

Lemma observed_done_app_l a b : observed_done a -> observed_done (a ++ b).
Proof. intros [c Hin]. exists c. apply in_or_app. left. exact Hin. Qed.

Lemma port_opened_app_l a b : port_opened a -> port_opened (a ++ b).
Proof. intros [c Hin]. exists c. apply in_or_app. left. exact Hin. Qed.

Lemma step_stages hist st clock_ms ev st' effs :
  stages_follow hist st -> step st clock_ms ev = Some (st', effs) ->
  stages_follow (hist ++ [(clock_ms, ev)]) st'
  /\ (existsb is_configure effs = true ->
      observed_done hist /\ port_opened hist /\ ev = SettleFired).
Proof.
  intros [Hp Hs] Hstep.
  assert (Hnow : forall e, In (clock_ms, e) (hist ++ [(clock_ms, e)]))
    by (intros e; apply in_or_app; right; left; reflexivity).
  destruct st, ev; cases;
    repeat match goal with
           | Hd : (_ =? _)%string = true |- _ => apply String.eqb_eq in Hd; subst
           end;
    (split; [split|]);
    try discriminate;
    try (intros; lia);
    try (intros Hpos; pose proof (Hp ltac:(lia)) as Hd;
         apply observed_done_app_l; exact Hd);
    try (intros Hpos; destruct (Hs ltac:(lia)) as [Hd Ho];
         split; [apply observed_done_app_l | apply port_opened_app_l]; assumption);
    try (intros _; exists clock_ms; apply Hnow);
    try (intros _; split; [apply observed_done_app_l; apply Hp; lia
                          | exists clock_ms; apply Hnow]);
    try (intros _; destruct (Hs ltac:(lia)) as [Hd Ho]; repeat split; assumption).
Qed.

Lemma run_stages evs : forall hist st st' effs,
  stages_follow hist st -> run st evs = Some (st', effs) ->
  existsb is_configure effs = true ->
  observed_done (hist ++ evs) /\ port_opened (hist ++ evs)
  /\ settle_fired (hist ++ evs).
Proof.
  induction evs as [|[c ev] evs IH]; intros hist st st' effs Hinv Hrun Hconf;
    cbn [run] in Hrun.
  - inversion Hrun; subst. discriminate.
  - destruct (step st c ev) as [[st1 e1]|] eqn:Hstep; [|discriminate].
    destruct (run st1 evs) as [[st2 e2]|] eqn:Hrest; [|discriminate].
    inversion Hrun; subst.
    destruct (step_stages _ _ _ _ _ _ Hinv Hstep) as [Hinv1 Hnow].
    rewrite existsb_app in Hconf. apply orb_true_iff in Hconf as [Hconf|Hconf].
    + destruct (Hnow Hconf) as (Hd & Ho & ->).
      repeat split.
      * apply observed_done_app_l. exact Hd.
      * apply port_opened_app_l. exact Ho.
      * exists c. apply in_or_app. right. left. reflexivity.
    + replace (hist ++ (c, ev) :: evs) with ((hist ++ [(c, ev)]) ++ evs)
        by (rewrite <- app_assoc; reflexivity).
      eapply IH; eassumption.
Qed.

Lemma step_settled st clock_ms ev st' effs :
  settled st -> step st clock_ms ev = Some (st', effs) -> settled st'.
Proof.
  intros (HJ & HM & HL) Hstep.
  destruct st, ev; cases;
    repeat split; intros; simplify_eq/=;
    try lia; try discriminate;
    try (destruct HJ as [HJ|[HJ1 HJ2]]; simplify_eq/=;
         first [ left; reflexivity
               | right; split; [reflexivity | first [discriminate | assumption]]
               | reflexivity
               | contradiction
               | exfalso; apply HM; [lia | reflexivity] ]);
    try (destruct (HL eq_refl) as [HL1 HL2]; simplify_eq/=; reflexivity);
    try (apply HM; lia).
Qed.

Lemma run_settled evs : forall st st' effs,
  settled st -> run st evs = Some (st', effs) -> settled st'.
Proof.
  induction evs as [|[c ev] evs IH]; intros st st' effs HK Hrun; cbn [run] in Hrun.
  - inversion Hrun; subst. exact HK.
  - destruct (step st c ev) as [[st1 e1]|] eqn:Hstep; [|discriminate].
    destruct (run st1 evs) as [[st2 e2]|] eqn:Hrest; [|discriminate].
    inversion Hrun; subst. eapply IH; [|exact Hrest].
    eapply step_settled; eassumption.
Qed.


End LifecycleMore.

(** X16.  A provisioning run delivers at most one outcome: over any
    sequence of events, [finalCb] is invoked with an error or the
    configuration of the ready instance is started at most once in all,
    and exactly once when [called] has been set. *)
Theorem run_delivers_at_most_one_outcome (clock0 : Z)
    (evs : list (Z * Lifecycle.event)) (st : Lifecycle.state)
    (effs : list Lifecycle.effect) :
  Lifecycle.run (Lifecycle.init clock0) evs = Some (st, effs) ->
  (outcomes_delivered effs <= 1)%nat
  /\ (Lifecycle.called st = true <-> outcomes_delivered effs = 1%nat).
Proof.
  intros Hrun. pose proof (LifecycleMore.run_outcomes _ _ _ _ Hrun) as Hcount.
  cbn [Lifecycle.init Lifecycle.called] in Hcount.
  destruct (Lifecycle.called st); split; try lia; split; intros; try lia;
    try reflexivity; discriminate.
Qed.

Lemma run_delivers_at_most_one_outcome_witness :
  (outcomes_delivered
     [Lifecycle.SetInterval 8000; Lifecycle.EventGet 431; Lifecycle.ClearInterval;
      Lifecycle.ClearInterval; Lifecycle.FinalCb (Js.Provider "gone")] <= 1)%nat.
Proof.
  apply (run_delivers_at_most_one_outcome 0
           [(2000, Lifecycle.CreateReplied (inr sample_droplet)); (8000, Lifecycle.Tick);
            (8400, Lifecycle.EventReplied (inl "gone"))]
           (Lifecycle.State 0 (Some sample_droplet) (Some false) true false 0 0 0 false)).
  vm_compute. reflexivity.
Defined.

(** X17.  The instance is handed on for configuration only at the end
    of the settle delay, and only in a run in which a poll reply said
    done and the port probe reported the port open. *)
Theorem ready_only_after_done_port_and_settle (clock0 : Z)
    (evs : list (Z * Lifecycle.event)) (st : Lifecycle.state)
    (effs : list Lifecycle.effect) :
  Lifecycle.run (Lifecycle.init clock0) evs = Some (st, effs) ->
  existsb is_configure effs = true ->
  Lifecycle.observed_done evs /\ port_opened evs /\ settle_fired evs.
Proof.
  intros Hrun Hconf.
  apply (LifecycleMore.run_stages evs [] (Lifecycle.init clock0) st effs);
    [|exact Hrun|exact Hconf].
  split; cbn; intros; lia.
Qed.

Lemma ready_only_after_done_port_and_settle_witness :
  port_opened
    [(2000, Lifecycle.CreateReplied (inr sample_droplet)); (8000, Lifecycle.Tick);
     (8400, Lifecycle.EventReplied (inr "done")); (9400, Lifecycle.PortOpened);
     (19400, Lifecycle.SettleFired)].
Proof.
  apply (ready_only_after_done_port_and_settle 0
           [(2000, Lifecycle.CreateReplied (inr sample_droplet)); (8000, Lifecycle.Tick);
            (8400, Lifecycle.EventReplied (inr "done")); (9400, Lifecycle.PortOpened);
            (19400, Lifecycle.SettleFired)]
           (Lifecycle.State 0 (Some sample_droplet) (Some false) true false 0 0 0 false)
           [Lifecycle.SetInterval 8000; Lifecycle.EventGet 431; Lifecycle.ClearInterval;
            Lifecycle.WaitUntilUsedOnHost 22 "10.0.0.7" 1000 240000;
            Lifecycle.ArmTimeout 10000; Lifecycle.ClearInterval;
            Lifecycle.Configure box]);
    vm_compute; reflexivity.
Defined.

(** X18.  Once a run has delivered its outcome, the poll timer is
    cleared for good: no later step issues a status poll. *)
Theorem no_poll_after_outcome (clock0 : Z) (evs : list (Z * Lifecycle.event))
    (st : Lifecycle.state) (effs0 : list Lifecycle.effect)
    (clock_ms : Z) (ev : Lifecycle.event)
    (st' : Lifecycle.state) (effs : list Lifecycle.effect) :
  Lifecycle.run (Lifecycle.init clock0) evs = Some (st, effs0) ->
  Lifecycle.called st = true ->
  Lifecycle.step st clock_ms ev = Some (st', effs) ->
  Forall (fun eff => Lifecycle.is_event_get eff = false) effs
  /\ Lifecycle.interval st' = Some false.
Proof.
  intros Hrun Hcalled Hstep.
  assert (Hset : settled st).
  { eapply LifecycleMore.run_settled; [|exact Hrun].
    repeat split; cbn; intros; try lia; try discriminate. left. reflexivity. }
  destruct Hset as (_ & _ & HL). specialize (HL Hcalled).
  destruct (LifecycleFacts.step_disarmed _ _ _ _ _ HL Hstep) as [[Hi _] Hno].
  split; assumption.
Qed.

Lemma no_poll_after_outcome_witness :
  Forall (fun eff => Lifecycle.is_event_get eff = false) [Lifecycle.ArmTimeout 10000].
Proof.
  apply (no_poll_after_outcome 0
           [(2000, Lifecycle.CreateReplied (inr sample_droplet));
            (8000, Lifecycle.Tick); (16000, Lifecycle.Tick);
            (16400, Lifecycle.EventReplied (inr "done"));
            (16500, Lifecycle.EventReplied (inl "gone"))]
           (Lifecycle.State 0 (Some sample_droplet) (Some false) true false 0 1 0 false)
           [Lifecycle.SetInterval 8000; Lifecycle.EventGet 431; Lifecycle.EventGet 431;
            Lifecycle.ClearInterval;
            Lifecycle.WaitUntilUsedOnHost 22 "10.0.0.7" 1000 240000;
            Lifecycle.ClearInterval; Lifecycle.ClearInterval;
            Lifecycle.FinalCb (Js.Provider "gone")]
           17000 Lifecycle.PortOpened
           (Lifecycle.State 0 (Some sample_droplet) (Some false) true false 0 0 1 false));
    vm_compute; reflexivity.
Defined.



(** ** Identifiers: [parseInt] undoes [String] *)

Module JsFacts.
Import Js.










Lemma index_found_nan (arr : list (option Z)) : index_found arr None = false.
Proof.
  unfold index_found. induction arr as [|[y|] arr IH]; [reflexivity| |]; exact IH.
Qed.
End JsFacts.

(** ** More on [dropletDestroyExcept] *)

Module ReconcileMore.
Import Reconcile.

Lemma destroyed_effects (ids : Js.ident + list Js.ident)
    (droplets : list instance) (outcomes : list (Js.error + string))
    (order : list nat) :
  destroyed (dropletDestroyExcept ids (inr droplets) outcomes order)
  = bad_ids (normalize ids) droplets.
Proof.
  unfold dropletDestroyExcept. cbn [destroyed omap list_omap].
  apply ReconcileFacts.destroyed_issue. intros e He.
  apply in_map_iff in He as (f & <- & _).
  unfold deliver. destruct (Async.final_err f); exact I.
Qed.

Lemma calls_destroys (bad : list (option Z)) (rest : list effect) :
  calls (map Destroy bad ++ rest) = calls rest.
Proof. induction bad as [|b bad IH]; [reflexivity | exact IH]. Qed.

Lemma calls_deliver (fs : list (Async.final (A:=string))) :
  calls (map deliver fs)
  = map (fun f => match Async.final_err f with
                  | Some err => [ArgError err]
                  | None => [ArgArray (Async.final_results f)]
                  end) fs.
Proof.
  induction fs as [|f fs IH]; [reflexivity|].
  cbn [map]. unfold deliver at 1. unfold calls in *.
  destruct (Async.final_err f); cbn [omap list_omap]; rewrite IH; reflexivity.
Qed.
End ReconcileMore.



(** X21.  An instance whose identifier does not parse as an integer is
    destroyed whatever the keep-list says: [NaN] is never found by
    [indexOf], so a destroy call with [NaN] is issued for it. *)
Theorem unparsable_identifier_is_always_destroyed (d : instance)
    (ids : Js.ident + list Js.ident) (droplets : list instance)
    (outcomes : list (Js.error + string)) (order : list nat) :
  In d droplets ->
  Js.parseInt (inst_id d) = None ->
  In None
     (Reconcile.destroyed
        (Reconcile.dropletDestroyExcept ids (inr droplets) outcomes order)).
Proof.
  intros Hin Hnan. rewrite ReconcileMore.destroyed_effects.
  unfold Reconcile.bad_ids. rewrite filter_In, negb_true_iff.
  split; [|apply JsFacts.index_found_nan].
  rewrite <- Hnan. apply (in_map (fun d => Js.parseInt (inst_id d))). exact Hin.
Qed.

Lemma unparsable_identifier_is_always_destroyed_witness :
  In None
     (Reconcile.destroyed
        (Reconcile.dropletDestroyExcept (inr [Js.Str "abc"; Js.Num 1])
           (inr [MkInstance (Js.Num 1) "web1" "10.0.0.1";
                 MkInstance (Js.Str "abc") "odd" "10.0.0.9"])
           [inr "ok"] [0%nat])).
Proof.
  apply (unparsable_identifier_is_always_destroyed
           (MkInstance (Js.Str "abc") "odd" "10.0.0.9")).
  - right. left. reflexivity.
  - reflexivity.
Defined.

(** X22.  When a destroy call fails, the caller is called back exactly
    once, with the first error reported, whatever the other destroy calls
    report before or after it; every destroy call has been issued by
    then. *)
Theorem first_destroy_error_wins (ids : Js.ident + list Js.ident)
    (droplets : list instance) (outcomes : list (Js.error + string))
    (order : list nat) (e : Js.error) :
  Async.first_error (Async.schedule outcomes order) = Some e ->
  (length (Async.schedule outcomes order)
   <= length (Reconcile.bad_ids (Reconcile.normalize ids) droplets))%nat ->
  Reconcile.calls (Reconcile.dropletDestroyExcept ids (inr droplets) outcomes order)
  = [[Reconcile.ArgError e]]
  /\ Reconcile.destroyed
       (Reconcile.dropletDestroyExcept ids (inr droplets) outcomes order)
     = Reconcile.bad_ids (Reconcile.normalize ids) droplets.
Proof.
  intros Hfirst Hlen. split; [|apply ReconcileMore.destroyed_effects].
  unfold Reconcile.dropletDestroyExcept.
  change (Reconcile.calls (Reconcile.ListAll :: ?l)) with (Reconcile.calls l).
  cbv zeta. set (bad := Reconcile.bad_ids (Reconcile.normalize ids) droplets) in *.
  set (sched := Async.schedule outcomes order) in *.
  change (Reconcile.calls (Reconcile.ListAll ::
            map Reconcile.Destroy bad
            ++ map Reconcile.deliver (snd (Async.parallel (length bad) sched))))
    with (Reconcile.calls (map Reconcile.Destroy bad
            ++ map Reconcile.deliver (snd (Async.parallel (length bad) sched)))).
  rewrite ReconcileMore.calls_destroys, ReconcileMore.calls_deliver.
  destruct (AsyncFacts.completions_first_error (length bad) sched e Hfirst Hlen)
    as (partial & Hfin & _).
  unfold Async.parallel, Async.start.
  assert (Hpos : (length bad =? 0)%nat = false).
  { apply Nat.eqb_neq. destruct sched; [discriminate|]. cbn [length] in Hlen. lia. }
  rewrite Hpos.
  destruct (Async.completions (length bad) (Async.PState [] 0 true) sched)
    as [st1 f1] eqn:Hc.
  cbn [snd app] in *. subst f1. reflexivity.
Qed.

Lemma first_destroy_error_wins_witness :
  Reconcile.calls
    (Reconcile.dropletDestroyExcept (inr [Js.Num 2; Js.Str "4"]) (inr fleet)
       [inr "ok"; inl (Js.Provider "locked")] [1%nat; 0%nat])
  = [[Reconcile.ArgError (Js.Provider "locked")]].
Proof.
  apply (first_destroy_error_wins (inr [Js.Num 2; Js.Str "4"]) fleet
           [inr "ok"; inl (Js.Provider "locked")] [1%nat; 0%nat]
           (Js.Provider "locked")).
  - reflexivity.
  - vm_compute. lia.
Defined.

(** X23.  Whatever the listing and the destroy calls report, the caller
    is never called back in the success form [cb(null, value)]: every
    invocation carries a single argument, in the error position. *)
Theorem destroy_never_calls_back_with_success (ids : Js.ident + list Js.ident)
    (listing : Js.error + list instance) (outcomes : list (Js.error + string))
    (order : list nat) :
  Forall (fun args => Reconcile.is_success_call args = false /\ length args = 1%nat)
         (Reconcile.calls
            (Reconcile.dropletDestroyExcept ids listing outcomes order)).
Proof.
  unfold Reconcile.dropletDestroyExcept. destruct listing as [err|droplets].
  - repeat constructor.
  - cbv zeta.
    change (Reconcile.calls (Reconcile.ListAll :: ?l)) with (Reconcile.calls l).
    rewrite ReconcileMore.calls_destroys, ReconcileMore.calls_deliver.
    apply Forall_forall. intros args Hin. apply list_elem_of_In in Hin.
    apply in_map_iff in Hin as (f & <- & _).
    destruct (Async.final_err f); split; reflexivity.
Qed.

(** ** Script paths and staging names *)

Module PathFacts.
Import Js.

Lemma has_sep_app (a b : string) : has_sep (a +:+ b) = has_sep a || has_sep b.
Proof.
  induction a as [|c a IH]; [reflexivity|].
  change (String c a +:+ b) with (String c (a +:+ b)). cbn [has_sep].
  destruct (Ascii.eqb c "/"); [reflexivity | exact IH].
Qed.

Lemma append_one (cur : string) (c : ascii) (s : string) :
  (cur +:+ String c EmptyString) +:+ s = cur +:+ String c s.
Proof. rewrite string_app_assoc. reflexivity. Qed.

Lemma append_empty (s : string) : s +:+ EmptyString = s.
Proof.
  induction s as [|c s IH]; [reflexivity|].
  change (String c s +:+ EmptyString) with (String c (s +:+ EmptyString)).
  rewrite IH. reflexivity.
Qed.

(** A string without separator is a single component. *)
Lemma components_plain (s : string) : forall cur,
  has_sep s = false -> components cur s = [cur +:+ s].
Proof.
  induction s as [|c s IH]; intros cur Hs; cbn [components].
  - rewrite append_empty. reflexivity.
  - cbn [has_sep] in Hs. destruct (Ascii.eqb c "/"); [discriminate|].
    rewrite IH by exact Hs. rewrite append_one. reflexivity.
Qed.

(** Components split at a separator. *)
Lemma components_sep (a b : string) : forall cur,
  components cur (a +:+ String "/" b) = components cur a ++ components EmptyString b.
Proof.
  induction a as [|c a IH]; intros cur.
  - reflexivity.
  - change (String c a +:+ String "/" b) with (String c (a +:+ String "/" b)).
    cbn [components]. destruct (Ascii.eqb c "/").
    + rewrite IH. reflexivity.
    + apply IH.
Qed.

(** No component holds a separator. *)
Lemma components_no_sep (s : string) : forall cur,
  has_sep cur = false ->
  List.Forall (fun c => has_sep c = false) (components cur s).
Proof.
  induction s as [|c s IH]; intros cur Hcur; cbn [components].
  - constructor; [exact Hcur | constructor].
  - destruct (Ascii.eqb c "/") eqn:Hc.
    + constructor; [exact Hcur | apply IH; reflexivity].
    + apply IH. rewrite has_sep_app, Hcur. cbn [has_sep orb]. rewrite Hc. reflexivity.
Qed.

Lemma last_no_sep (l : list string) :
  List.Forall (fun c => has_sep c = false) l ->
  has_sep (List.last l EmptyString) = false.
Proof.
  induction 1 as [|c l Hc Hl IH]; [reflexivity|].
  destruct l as [|c' l]; [exact Hc | exact IH].
Qed.

Lemma filter_no_sep (l : list string) :
  List.Forall (fun c => has_sep c = false) l ->
  List.Forall (fun c => has_sep c = false) (List.filter nonempty l).
Proof.
  induction 1 as [|c l Hc Hl IH]; [constructor|].
  cbn [List.filter]. destruct (nonempty c); [constructor; assumption | exact IH].
Qed.

Lemma basename_no_sep (s : string) : has_sep (basename s) = false.
Proof.
  unfold basename. apply last_no_sep, filter_no_sep, components_no_sep. reflexivity.
Qed.

Lemma pretty_char_no_sep (d : N) : Ascii.eqb (pretty_N_char d) "/" = false.
Proof. unfold pretty_N_char. repeat case_match; reflexivity. Qed.

Lemma pretty_go_no_sep (x : N) : forall s,
  has_sep s = false -> has_sep (pretty_N_go x s) = false.
Proof.
  induction (N.lt_wf_0 x) as [x _ IH]. intros s Hs.
  destruct (N.eq_dec x 0%N) as [->|Hnz]; [rewrite pretty_N_go_0; exact Hs|].
  rewrite pretty_N_go_step by (apply N.neq_0_lt_0; exact Hnz).
  apply IH; [apply N.div_lt; lia|].
  cbn [has_sep]. rewrite pretty_char_no_sep. exact Hs.
Qed.

Lemma num_no_sep (z : Z) : has_sep (num z) = false.
Proof.
  assert (Hn : forall x : N, has_sep (pretty x) = false).
  { intros x. unfold pretty, pretty_N. destruct (decide (x = 0%N)); [reflexivity|].
    apply pretty_go_no_sep. reflexivity. }
  destruct z as [|p|p]; [reflexivity | apply Hn |].
  unfold num, pretty, pretty_Z.
  change ("-" +:+ pretty p) with (String "-"%char (pretty (Npos p))).
  cbn [has_sep]. change (Ascii.eqb "-" "/") with false. cbv iota. apply Hn.
Qed.

Lemma staging_name_no_sep (script : string) : has_sep (staging_name script) = false.
Proof.
  unfold staging_name. destruct (has_sep script) eqn:Hs;
    [apply basename_no_sep | exact Hs].
Qed.
End PathFacts.

(** X24.  The staging path is always a file directly under [/tmp]:
    whatever directory the script is given in, the remote name holds no
    further separator, so no remote directory is ever assumed to
    exist. *)
Theorem staging_path_is_directly_under_tmp (script : string) (clock_ms : Z) :
  Js.components EmptyString (target_path_at script clock_ms)
  = [EmptyString; "tmp"; staging_name script +:+ "_" +:+ Js.num (Js.unix clock_ms)]
  /\ Js.has_sep (staging_name script) = false.
Proof.
  split; [|apply PathFacts.staging_name_no_sep].
  unfold target_path_at.
  change ("/tmp/" +:+ ?x) with (String "/" (String "t" (String "m" (String "p" (String "/" x))))).
  cbn [Js.components Ascii.eqb Bool.eqb].
  change (((EmptyString +:+ "t") +:+ "m") +:+ "p") with "tmp".
  rewrite PathFacts.components_plain; [reflexivity|].
  rewrite !PathFacts.has_sep_app, PathFacts.staging_name_no_sep, PathFacts.num_no_sep.
  reflexivity.
Qed.

(** X25.  The file copied and the name it is staged under agree: for a
    non-empty script, the base name of the local path [_getScriptPath]
    resolves is the name [_copyInstanceScript] stages it under, whether
    the script was given as a bare file name or as a path. *)
Theorem staged_name_is_basename_of_local_path (opts : options) (script : string) :
  script <> EmptyString ->
  Js.basename (_getScriptPath opts script) = staging_name script.
Proof.
  intros Hne. unfold _getScriptPath, staging_name.
  destruct (Js.has_sep script) eqn:Hs; [reflexivity|].
  unfold Js.basename.
  change (scripts_path opts +:+ "/" +:+ script)
    with (scripts_path opts +:+ String "/" script).
  rewrite PathFacts.components_sep, List.filter_app.
  rewrite (PathFacts.components_plain script EmptyString Hs).
  change (EmptyString +:+ script) with script. cbn [List.filter].
  destruct script as [|c s]; [contradiction|]. cbn [Js.nonempty].
  apply last_last.
Qed.

Lemma staged_name_is_basename_of_local_path_witness :
  Js.basename (_getScriptPath quiet "setup.sh") = staging_name "setup.sh".
Proof.
  apply (staged_name_is_basename_of_local_path quiet "setup.sh"). discriminate.
Defined.

(** X26.  A resolved script path always holds a separator, so it is
    taken as it is when given again: resolving twice changes nothing. *)
Theorem getScriptPath_is_idempotent (opts : options) (script : string) :
  Js.has_sep (_getScriptPath opts script) = true
  /\ _getScriptPath opts (_getScriptPath opts script) = _getScriptPath opts script.
Proof.
  assert (Hsep : Js.has_sep (_getScriptPath opts script) = true).
  { unfold _getScriptPath. destruct (Js.has_sep script) eqn:Hs; [exact Hs|].
    rewrite !PathFacts.has_sep_app. cbn. apply orb_true_r. }
  split; [exact Hsep|].
  unfold _getScriptPath at 1. rewrite Hsep. reflexivity.
Qed.
